(** * The command console of peercast-yt: [core/common/commands.cpp]

    A shallow embedding of the console runtime — the tokenizer
    [command_words], the argument splitter [parse_options], the dispatcher
    [Commands::system] and the handlers it reaches — together with the
    properties of the console's specification that can be settled on it. *)

From Stdlib Require Import String Ascii ZArith Lia.
From stdpp Require Import base option list gmap strings pretty.

(** ** Strings

    [std::string] is a [string]: a sequence of arbitrary bytes, NUL included.
    [word += c] appends one character at the end. *)

Definition push_char (word : string) (c : ascii) : string :=
  word +:+ String c "".

Definition space : ascii := " "%char.
Definition dquote : ascii := "034"%char.
Definition backslash : ascii := "\"%char.
Definition NUL : ascii := "000"%char.

(** [s.size() != 0], as the tokenizer tests it before flushing a word. *)
Definition nonempty (s : string) : bool :=
  match s with "" => false | String _ _ => true end.

(** [s.c_str()] handed to a [%s] conversion (or to any [const char*]
    parameter): the characters up to the first NUL. *)
Fixpoint c_str (s : string) : string :=
  match s with
  | "" => ""
  | String c rest => if Ascii.eqb c NUL then "" else String c (c_str rest)
  end.

(** ** Exceptions

    [GeneralException] and its subclasses ([FormatException],
    [StreamException], ...) are declared outside this file; all the console
    does with one is [catch (GeneralException& e)] and [e.what()].  Anything
    else that can unwind the stack is an [OtherException]. *)

Inductive thrown : Type :=
  | GeneralException (what : string)
  | OtherException (what : string).

Definition FormatException (msg : string) : thrown := GeneralException msg.

(** ** The tokenizer: [command_words]

    The iterator [p] is the part of [cmdline] still to be read:
    [p == cmdline.end()] is [p = ""], [*p] is the head of [p] and [p++] its
    tail.  The three loops of the source are the outer [words_loop] and the
    two inner loops [skip] (lines 42-44) and [quoted] (lines 48-66), which
    hand control back to the outer loop.

    The [do p++ while p-points-at-a-space] loop evaluates [*p] without
    comparing [p] with [cmdline.end()] first.  When the input ends in a
    space that read is made at [cmdline.end()], one position past the last
    character; it yields the terminator that [std::string] keeps there,
    which is not a space, so the loop stops.  The embedding follows that and
    records the access in the [past_end] flag. *)

Definition flush (word : string) (words : list string) : list string :=
  if nonempty word then words ++ [word] else words.

Fixpoint words_loop (p : string) (word : string) (words : list string)
    (past_end : bool) {struct p} : bool * (thrown + list string) :=
  match p with
  | "" => (past_end, inr (flush word words))
  | String c p1 =>
      if Ascii.eqb c space then
        let words1 := flush word words in
        (fix skip (q : string) : bool * (thrown + list string) :=
           match q with
           | "" => (* [*p] read at [cmdline.end()] *)
               words_loop q "" words1 true
           | String d q1 =>
               if Ascii.eqb d space then skip q1
               else words_loop q "" words1 past_end
           end) p1
      else if Ascii.eqb c dquote then
        (fix quoted (q : string) (word : string)
             : bool * (thrown + list string) :=
           match q with
           | "" =>
               (past_end,
                inl (FormatException "Premature end of quoted string"))
           | String d q1 =>
               if Ascii.eqb d backslash then
                 match q1 with
                 | "" =>
                     (past_end,
                      inl (FormatException
                             "Premature end of escaped character"))
                 | String e q2 => quoted q2 (push_char word e)
                 end
               else if Ascii.eqb d dquote then
                 words_loop q1 "" (words ++ [word]) past_end
               else quoted q1 (push_char word d)
           end) p1 word
      else words_loop p1 (push_char word c) words past_end
  end.

Definition command_words (cmdline : string) : thrown + list string :=
  snd (words_loop cmdline "" [] false).

(** Whether tokenizing [cmdline] dereferences [cmdline.end()]. *)
Definition reads_past_end (cmdline : string) : bool :=
  fst (words_loop cmdline "" [] false).

(** [quote s] is [s] between two double quotes, for writing command lines. *)
Definition quote (s : string) : string :=
  String dquote s +:+ String dquote "".

(** The two inner loops under names of their own, as [words_loop] runs them:
    [skip_from] from the position after a space, [quoted_from] from the
    position after an opening quote. *)
Definition skip_from (words1 : list string) (past_end : bool)
    : string -> bool * (thrown + list string) :=
  fix skip (q : string) : bool * (thrown + list string) :=
    match q with
    | "" => words_loop q "" words1 true
    | String d q1 =>
        if Ascii.eqb d space then skip q1
        else words_loop q "" words1 past_end
    end.

Definition quoted_from (words : list string) (past_end : bool)
    : string -> string -> bool * (thrown + list string) :=
  fix quoted (q : string) (word : string) : bool * (thrown + list string) :=
    match q with
    | "" => (past_end, inl (FormatException "Premature end of quoted string"))
    | String d q1 =>
        if Ascii.eqb d backslash then
          match q1 with
          | "" =>
              (past_end,
               inl (FormatException "Premature end of escaped character"))
          | String e q2 => quoted q2 (push_char word e)
          end
        else if Ascii.eqb d dquote then
          words_loop q1 "" (words ++ [word]) past_end
        else quoted q1 (push_char word d)
    end.

(** *** The tokenizer as a one-pass scanner

    The same loops read as a machine that consumes one character at a time:
    the mode says which loop the control is in.  [words_loop_scan] below
    proves that [words_loop] computes exactly [scan_finish] of [scan_run];
    the properties of [command_words] are derived through it. *)

Inductive mode : Type :=
  | InWord          (* outer loop, about to test [p != cmdline.end()] *)
  | InSpaces        (* the space-skipping loop, about to evaluate [*p] *)
  | InQuoted        (* the quoted-region loop *)
  | AfterBackslash. (* the quoted-region loop, after [\] and [p++] *)

Record scanner : Type := Scanner {
  sc_mode : mode;
  sc_word : string;
  sc_words : list string
}.

Definition scan_step (st : scanner) (c : ascii) : scanner :=
  match sc_mode st with
  | InWord | InSpaces =>
      if Ascii.eqb c space then
        Scanner InSpaces "" (flush (sc_word st) (sc_words st))
      else if Ascii.eqb c dquote then
        Scanner InQuoted (sc_word st) (sc_words st)
      else Scanner InWord (push_char (sc_word st) c) (sc_words st)
  | InQuoted =>
      if Ascii.eqb c backslash then
        Scanner AfterBackslash (sc_word st) (sc_words st)
      else if Ascii.eqb c dquote then
        Scanner InWord "" (sc_words st ++ [sc_word st])
      else Scanner InQuoted (push_char (sc_word st) c) (sc_words st)
  | AfterBackslash =>
      Scanner InQuoted (push_char (sc_word st) c) (sc_words st)
  end.

Fixpoint scan_run (st : scanner) (p : string) : scanner :=
  match p with
  | "" => st
  | String c p1 => scan_run (scan_step st c) p1
  end.

Definition scan_finish (past_end : bool) (st : scanner)
    : bool * (thrown + list string) :=
  match sc_mode st with
  | InWord => (past_end, inr (flush (sc_word st) (sc_words st)))
  | InSpaces => (true, inr (flush (sc_word st) (sc_words st)))
  | InQuoted =>
      (past_end, inl (FormatException "Premature end of quoted string"))
  | AfterBackslash =>
      (past_end, inl (FormatException "Premature end of escaped character"))
  end.

(** *** Quoted regions, as the grammar of the specification words them

    A double quote begins a quoted region; inside it a backslash escapes the
    character that follows, and the matching unescaped double quote ends the
    region.  [region_at_end] is where the end of the input is reached. *)

Inductive region : Type := Outside | InsideQuotes | AfterEscape.

Definition region_step (r : region) (c : ascii) : region :=
  match r with
  | Outside => if Ascii.eqb c dquote then InsideQuotes else Outside
  | InsideQuotes =>
      if Ascii.eqb c backslash then AfterEscape
      else if Ascii.eqb c dquote then Outside
      else InsideQuotes
  | AfterEscape => InsideQuotes
  end.

Fixpoint region_after (r : region) (s : string) : region :=
  match s with
  | "" => r
  | String c s1 => region_after (region_step r c) s1
  end.

Definition region_at_end (cmdline : string) : region :=
  region_after Outside cmdline.

Definition mode_region (m : mode) : region :=
  match m with
  | InWord | InSpaces => Outside
  | InQuoted => InsideQuotes
  | AfterBackslash => AfterEscape
  end.

(** Characters and tokens for the statements about quoting. *)
Fixpoint has_char (c : ascii) (s : string) : bool :=
  match s with
  | "" => false
  | String d s1 => Ascii.eqb d c || has_char c s1
  end.

(** A token that reads back as itself: not empty, no space, no quote. *)
Definition bare (w : string) : bool :=
  nonempty w && negb (has_char space w) && negb (has_char dquote w).

(** Text that may stand between two double quotes and denotes itself. *)
Definition plain_quoted (w : string) : bool :=
  negb (has_char dquote w) && negb (has_char backslash w).

(** Text without space or quote (possibly empty). *)
Definition unquoted (w : string) : bool :=
  negb (has_char space w) && negb (has_char dquote w).

(** [str::join]. *)
Definition join (sep : string) (l : list string) : string :=
  String.concat sep l.

(** ** The argument splitter: [parse_options] *)

(** [std::find(option_names.begin(), option_names.end(), a)
     != option_names.end()]. *)
Definition is_option_name (option_names : list string) (a : string) : bool :=
  bool_decide (a ∈ option_names).

(** The inner [for (j = i + 1; ...)] loop: one [push_back] per argument. *)
Fixpoint push_rest (rest : list string) (positionals : list string)
    : list string :=
  match rest with
  | [] => positionals
  | a :: rest1 => push_rest rest1 (positionals ++ [a])
  end.

Fixpoint parse_loop (option_names : list string) (args : list string)
    (options : gmap string bool) (positionals : list string)
    : gmap string bool * list string :=
  match args with
  | [] => (options, positionals)
  | a :: rest =>
      if String.eqb a "--" then (options, push_rest rest positionals)
      else if is_option_name option_names a then
        parse_loop option_names rest (<[a := true]> options) positionals
      else parse_loop option_names rest options (positionals ++ [a])
  end.

Definition parse_options (args : list string) (option_names : list string)
    : gmap string bool * list string :=
  parse_loop option_names args ∅ [].

(** The arguments before the first [--] and those after it. *)
Fixpoint before_dashes (args : list string) : list string :=
  match args with
  | [] => []
  | a :: rest => if String.eqb a "--" then [] else a :: before_dashes rest
  end.

Fixpoint after_dashes (args : list string) : list string :=
  match args with
  | [] => []
  | a :: rest => if String.eqb a "--" then rest else after_dashes rest
  end.

(** ** The output sink and [printf] formats

    Modelled from the spec: the [Stream] of [stream.h], through the
    interface of the output sink.  It receives line-oriented writes
    ([writeLine], [writeLineF]: the text and then a line terminator) and raw
    writes ([writeString], [writeStringF]: the text alone).  The sink is
    the history of writes, oldest first. *)

Inductive write : Type :=
  | Line (text : string)
  | Raw (text : string).

Inductive fmt_arg : Type :=
  | FS (s : string)   (* a [const char*] for [%s] *)
  | FD (n : Z).       (* an [int] for [%d] *)

Fixpoint spaces (n : nat) : string :=
  match n with
  | O => ""
  | S n1 => String space (spaces n1)
  end.

Definition pad_right (width : nat) (s : string) : string :=
  s +:+ spaces (width - String.length s).

Definition percent : ascii := "%"%char.
Definition newline : ascii := "010"%char.

(** The conversions the console uses: [%s], [%d] and [%-20s].  A [%s]
    prints its argument up to the first NUL.  A conversion without a
    matching argument prints nothing (no format of the source has one). *)
Fixpoint format (fmt : string) (args : list fmt_arg) : string :=
  match fmt with
  | "" => ""
  | String c rest =>
      if Ascii.eqb c percent then
        match rest with
        | "" => String c ""
        | String d rest1 =>
            if Ascii.eqb d "s"%char then
              match args with
              | FS s :: args1 => c_str s +:+ format rest1 args1
              | _ => format rest1 (tail args)
              end
            else if Ascii.eqb d "d"%char then
              match args with
              | FD n :: args1 => pretty n +:+ format rest1 args1
              | _ => format rest1 (tail args)
              end
            else
              match rest1 with
              | String e1 (String e2 (String e3 rest4)) =>
                  if Ascii.eqb d "-"%char && Ascii.eqb e1 "2"%char
                     && Ascii.eqb e2 "0"%char && Ascii.eqb e3 "s"%char
                  then
                    match args with
                    | FS s :: args1 =>
                        pad_right 20 (c_str s) +:+ format rest4 args1
                    | _ => format rest4 (tail args)
                    end
                  else String c (format rest args)
              | _ => String c (format rest args)
              end
        end
      else String c (format rest args)
  end.

(** ** Collaborators

    Everything the console reaches outside [commands.cpp].  None of it is
    in this file of the repository, so each collaborator is a field of the
    environment [Env]: what the call answers, and for the stream whether a
    write is accepted. *)

(** [LogBuffer::TYPE]: the two levels the console names, and the others. *)
Inductive TYPE : Type :=
  | T_ERROR
  | T_WARN
  | T_LEVEL (n : nat).

Record log_event : Type := LogEvent {
  ev_time : nat;
  ev_type : TYPE;
  ev_msg : string
}.

Record ServFilter : Type := {
  getPattern : string;
  flags : Z
}.

Record channel_info : Type := {
  getName : string;
  getID_str : string;
  getStatusStr : string
}.

(** A collaborator call made while [helo] has its logging callback in
    [AUX_LOG_FUNC_VECTOR]: the messages it logs, then its result. *)
Record logged (A : Type) : Type := Logged {
  log_lines : list (TYPE * string);
  log_result : thrown + A
}.
Arguments Logged {A} _ _.
Arguments log_lines {A} _.
Arguments log_result {A} _.

Record Env : Type := {
  (** [Stream]: what a write does, given what the stream has received so
      far and the write that is attempted: [None] when it is accepted,
      [Some e] when it throws [e] and nothing is written. *)
  stream_fault : list write -> write -> option thrown;
  (** The cancellation predicate: its answer at the [k]-th poll. *)
  cancel : nat -> bool;
  (** [LogBuffer]: the events its source delivers to the listener of [log]
      between the end of the drain of round [k - 1] (the registration, for
      round [0]) and the [k]-th poll, and between the [k]-th poll and the
      moment the drain of round [k] takes the lock (the deregistration, if
      the poll reported cancellation). *)
  delivered_asleep : nat -> list log_event;
  delivered_awake : nat -> list log_event;
  getTypeStr : TYPE -> string;
  (** [http::get]. *)
  http_get : string -> thrown + string;
  (** [IP::tryParse], [sys->getHostnameByAddress], [sys->getIPAddresses]. *)
  IP_tryParse : string -> option N;
  getHostnameByAddress : N -> option string;
  getIPAddresses : string -> thrown + list string;
  (** [chanMgr->channel] and [servMgr->filters]. *)
  channels : list channel_info;
  filters : list ServFilter;
  F_BAN : Z;
  F_NETWORK : Z;
  F_DIRECT : Z;
  F_PRIVATE : Z;
  (** [helo]: [Host::fromString(target, DEFAULT_PORT).str()], opening and
      connecting the socket, the PCP handshake (remote id and agent), the
      quit and close, what [CopyingStream] has copied when its scope is
      left, and the two dump formats. *)
  Host_fromString : string -> thrown + string;
  sock_connect : string -> logged unit;
  pcp_handshake : string -> logged (string * string);
  pcp_quit : string -> logged unit;
  copied : string -> string * string;
  ascii_dump : string -> string;
  hexdump : string -> string
}.

(** The calls that leave the process or change a shared registry. *)
Inductive call : Type :=
  | AddListener (id : nat)
  | RemoveListener (id : nat)
  | HttpGet (url : string)
  | GetHostnameByAddress (ip : N)
  | GetIPAddresses (name : string)
  | SockConnect (host : string)
  | PcpHandshake (host : string)
  | PcpQuit (host : string).

(** ** The state the console acts on *)

Record world : Type := World {
  sink : list write;        (* what the stream has received *)
  listeners : list nat;     (* subscriptions of [sys->logBuf] *)
  aux_log_funcs : nat;      (* size of [AUX_LOG_FUNC_VECTOR] *)
  calls : list call;        (* collaborator calls made so far *)
  clock : nat               (* time spent in [sys->sleep] *)
}.

Definition set_sink (f : list write -> list write) (w : world) : world :=
  World (f (sink w)) (listeners w) (aux_log_funcs w) (calls w) (clock w).
Definition set_listeners (f : list nat -> list nat) (w : world) : world :=
  World (sink w) (f (listeners w)) (aux_log_funcs w) (calls w) (clock w).
Definition set_aux_log_funcs (f : nat -> nat) (w : world) : world :=
  World (sink w) (listeners w) (f (aux_log_funcs w)) (calls w) (clock w).
Definition set_calls (f : list call -> list call) (w : world) : world :=
  World (sink w) (listeners w) (aux_log_funcs w) (f (calls w)) (clock w).
Definition set_clock (f : nat -> nat) (w : world) : world :=
  World (sink w) (listeners w) (aux_log_funcs w) (calls w) (f (clock w)).

(** ** Computations: state, exceptions, and a loop still running

    A computation returns, throws, or — only the polling loop of [log] can
    do that — is still [Running] when the fuel given to the model is used
    up.  What was written before a throw stays written.  A failure that
    leaves the destructor of a [Defer] ends the process
    ([std::terminate]): the computation is [Terminated], and nothing runs
    after it. *)

Inductive outcome (A : Type) : Type :=
  | Returned (a : A)
  | Threw (e : thrown)
  | Running
  | Terminated.
Arguments Returned {A} _.
Arguments Threw {A} _.
Arguments Running {A}.
Arguments Terminated {A}.

Definition M (A : Type) : Type := world -> outcome A * world.

Definition ret {A} (a : A) : M A := fun w => (Returned a, w).

Definition bind {A B} (m : M A) (k : A -> M B) : M B :=
  fun w =>
    match m w with
    | (Returned a, w1) => k a w1
    | (Threw e, w1) => (Threw e, w1)
    | (Running, w1) => (Running, w1)
    | (Terminated, w1) => (Terminated, w1)
    end.

Definition throw {A} (e : thrown) : M A := fun w => (Threw e, w).

(** [try { body } catch (GeneralException& e) { handler(e.what()) }]. *)
Definition try_catch {A} (body : M A) (handler : string -> M A) : M A :=
  fun w =>
    match body w with
    | (Threw (GeneralException msg), w1) => handler msg w1
    | r => r
    end.

(** Modelled from the spec: [Defer] of [defer.h], the deterministic
    scope-exit mechanism.  [Defer defer(cleanup); body] runs [cleanup] once,
    in the destructor of [defer], when the scope of [body] is left by
    return or by a thrown failure, and the way the scope was left is kept.
    A loop that is still running has not left the scope.  A destructor
    does not let a failure out: when [cleanup] throws, the process is
    terminated, with what [cleanup] had done until then. *)
Definition defer {A} (cleanup : M unit) (body : M A) : M A :=
  fun w =>
    match body w with
    | (Running, w1) => (Running, w1)
    | (Terminated, w1) => (Terminated, w1)
    | (o, w1) =>
        match cleanup w1 with
        | (Returned _, w2) => (o, w2)
        | (Threw _, w2) => (Terminated, w2)
        | (Running, w2) => (Running, w2)
        | (Terminated, w2) => (Terminated, w2)
        end
    end.

Declare Scope console_scope.
Delimit Scope console_scope with console.
Notation "x <- m ;; k" := (bind m (fun x => k))
  (at level 100, m at next level, k at level 200, only parsing,
   right associativity) : console_scope.
Notation "m ;; k" := (bind m (fun _ => k))
  (at level 100, k at level 200, only parsing, right associativity)
  : console_scope.
Local Open Scope console_scope.

(** [(int)n] for a [size_t] [n]: the value modulo [2^32], read as a signed
    32-bit integer. *)
Definition to_int (n : Z) : Z :=
  ((n + 2147483648) mod 4294967296 - 2147483648)%Z.

(** A result of a collaborator enters the computation. *)
Definition lift {A} (r : thrown + A) : M A :=
  match r with
  | inl e => throw e
  | inr a => ret a
  end.

Definition record_call (c : call) : M unit :=
  fun w => (Returned tt, set_calls (fun cs => cs ++ [c]) w).

Fixpoint for_each {A} (l : list A) (body : A -> M unit) : M unit :=
  match l with
  | [] => ret tt
  | x :: rest => body x ;; for_each rest body
  end.

(** [sys->sleep(ms)]. *)
Definition sys_sleep (ms : nat) : M unit :=
  fun w => (Returned tt, set_clock (fun t => t + ms) w).

(** Modelled from the spec: the event source [sys->logBuf] of [logbuf.h],
    through its interface [addListener(callback) -> subscriptionId] and
    [removeListener(subscriptionId)].  A registration gets an identifier
    that no live subscription has, and a removal drops the subscription
    with that identifier.  Only the subscriptions of this session are
    followed. *)
Definition fresh_id (ids : list nat) : nat := S (max_list ids).

Definition addListener : M nat :=
  fun w =>
    let id := fresh_id (listeners w) in
    (Returned id,
     set_calls (fun cs => cs ++ [AddListener id])
       (set_listeners (fun ls => ls ++ [id]) w)).

Definition removeListener (id : nat) : M unit :=
  fun w =>
    (Returned tt,
     set_calls (fun cs => cs ++ [RemoveListener id])
       (set_listeners (fun ls => filter (fun i => i ≠ id) ls) w)).

(** [AUX_LOG_FUNC_VECTOR->push_back(...)] and [->pop_back()]. *)
Definition push_aux_log_func : M unit :=
  fun w => (Returned tt, set_aux_log_funcs S w).
Definition pop_aux_log_func : M unit :=
  fun w => (Returned tt, set_aux_log_funcs pred w).

Definition log_chunk_format : string := "[%s] %s" +:+ String newline "".

(** ** The commands *)

Module Commands.
Section Handlers.

Variable env : Env.

(** *** Writing to the stream *)

Definition stream_write (c : write) : M unit :=
  fun w =>
    match stream_fault env (sink w) c with
    | Some e => (Threw e, w)
    | None => (Returned tt, set_sink (fun h => h ++ [c]) w)
    end.

Definition writeLine (text : string) : M unit := stream_write (Line text).
Definition writeString (text : string) : M unit := stream_write (Raw text).
Definition writeLineF (fmt : string) (args : list fmt_arg) : M unit :=
  writeLine (format fmt args).
Definition writeStringF (fmt : string) (args : list fmt_arg) : M unit :=
  writeString (format fmt args).

(** *** [Commands::echo] *)

Fixpoint echo_numbered (i : Z) (positionals : list string) : M unit :=
  match positionals with
  | [] => ret tt
  | word :: rest =>
      writeLineF "[%d] %s" [FD i; FS word] ;;
      echo_numbered (i + 1) rest
  end.

Definition echo (argv : list string) : M unit :=
  let '(options, positionals) := parse_options argv ["-v"] in
  if bool_decide (is_Some (options !! "-v")) then
    echo_numbered 1 positionals
  else writeLine (c_str (join " " positionals)).

(** *** [Commands::chan] *)

Definition chan (argv : list string) : M unit :=
  for_each (channels env) (fun it =>
    writeLineF "%s %s %s"
      [FS (getName it); FS (getID_str it); FS (getStatusStr it)]).

(** *** [Commands::get] *)

Definition get (argv : list string) : M unit :=
  if negb (length argv =? 1) then writeLine "Usage: get URL"
  else
    let url := nth 0 argv "" in
    fetched <-
      try_catch
        (record_call (HttpGet url) ;;
         body <- lift (http_get env url) ;;
         ret (Some body))
        (fun what => writeStringF "Error: %s" [FS what] ;; ret None) ;;
    match fetched with
    | Some body => writeString body
    | None => ret tt
    end.

(** *** [Commands::filter] *)

Definition has_flag (f : ServFilter) (mask : Z) : bool :=
  negb (Z.land (flags f) mask =? 0)%Z.

Definition filter_labels (f : ServFilter) : list string :=
  (if has_flag f (F_BAN env) then ["banned"] else [])
  ++ (if has_flag f (F_NETWORK env) then ["network"] else [])
  ++ (if has_flag f (F_DIRECT env) then ["direct"] else [])
  ++ (if has_flag f (F_PRIVATE env) then ["private"] else []).

Definition filter (argv : list string) : M unit :=
  if length argv <? 1 then
    writeLine "Usage: filter show" ;;
    writeLine "       filter ban TARGET"
  else
    let sub := nth 0 argv "" in
    if String.eqb sub "show" then
      for_each (filters env) (fun f =>
        writeLineF "%-20s %s"
          [FS (getPattern f); FS (join " " (filter_labels f))])
    else if String.eqb sub "ban" then writeLine "not implemented yet"
    else writeLineF "Unknown subcommand '%s'" [FS sub].

(** *** [Commands::log]

    The listener formats an event into a chunk and pushes it on the queue;
    the handler polls [cancel], and while it answers false drains the whole
    queue to the stream under the lock and sleeps.  The lock makes a drain
    atomic with respect to the listener, so a run is an interleaving of the
    handler's steps with the deliveries of the event source, which the
    environment schedules per round. *)

Definition listener_chunk (ev : log_event) : string :=
  format log_chunk_format [FS (getTypeStr env (ev_type ev)); FS (ev_msg ev)].

Definition enqueue (queue : list string) (evs : list log_event)
    : list string :=
  queue ++ map listener_chunk evs.

(** [while (!queue.empty()) { stream.writeString(queue.front());
    queue.pop(); }] *)
Fixpoint drain (queue : list string) : M unit :=
  match queue with
  | [] => ret tt
  | chunk :: rest => writeString chunk ;; drain rest
  end.

(** The polling loop from its [k]-th poll on.  It returns with what is
    still in the queue when the loop is left; the queue dies with the
    handler's frame. *)
Fixpoint log_loop (fuel : nat) (k : nat) (queue : list string)
    : M (list string) :=
  match fuel with
  | O => fun w => (Running, w)
  | S fuel1 =>
      let queue1 := enqueue queue (delivered_asleep env k) in
      let queue2 := enqueue queue1 (delivered_awake env k) in
      if cancel env k then ret queue2
      else
        drain queue2 ;;
        sys_sleep 100 ;;
        log_loop fuel1 (S k) []
  end.

Definition log (fuel : nat) (argv : list string) : M unit :=
  id <- addListener ;;
  defer (removeListener id)
    (log_loop fuel 0 [] ;; ret tt).

(** *** [Commands::nslookup] *)

Definition nslookup (argv : list string) : M unit :=
  if negb (length argv =? 1) then writeLine "Usage: nslookup NAME"
  else
    let str := nth 0 argv "" in
    match IP_tryParse env str with
    | Some ip =>
        record_call (GetHostnameByAddress ip) ;;
        match getHostnameByAddress env ip with
        | Some out => writeLine out
        | None => writeLineF "Error: '%s' not found" [FS str]
        end
    | None =>
        try_catch
          (record_call (GetIPAddresses str) ;;
           ips <- lift (getIPAddresses env str) ;;
           for_each ips writeLine)
          (fun what =>
             writeLineF "Error: '%s' not found: %s" [FS str; FS what])
    end.

(** *** [Commands::helo] *)

(** The callback pushed on [AUX_LOG_FUNC_VECTOR]. *)
Definition aux_log_func (type : TYPE) (msg : string) : M unit :=
  match type with
  | T_ERROR => writeString "Error: "
  | T_WARN => writeString "Warning: "
  | T_LEVEL _ => ret tt
  end ;;
  writeLine (c_str msg).

Definition logged_call {A} (c : call) (r : logged A) : M A :=
  record_call c ;;
  for_each (log_lines r) (fun tm => aux_log_func (fst tm) (snd tm)) ;;
  lift (log_result r).

Definition dump (label : string) (data : string) : M unit :=
  writeLineF ("--- %d bytes " +:+ label)
    [FD (to_int (Z.of_nat (String.length data)))] ;;
  if nonempty data then
    writeLine (ascii_dump env data) ;;
    writeLine (hexdump env data)
  else ret tt.

Definition dump_traffic (options : gmap string bool) (host : string)
    : M unit :=
  if bool_decide (is_Some (options !! "-v")) then
    dump "written" (fst (copied env host)) ;;
    dump "read" (snd (copied env host))
  else ret tt.

Definition helo (argv : list string) : M unit :=
  let '(options, positionals) := parse_options argv ["-v"] in
  if negb (length positionals =? 1) then writeLine "Usage: helo [-v] HOST"
  else
    let target := nth 0 positionals "" in
    try_catch
      (push_aux_log_func ;;
       defer pop_aux_log_func
         (host <- lift (Host_fromString env target) ;;
          writeLineF "HELO %s" [FS host] ;;
          logged_call (SockConnect host) (sock_connect env host) ;;
          defer (dump_traffic options host)
            (remote <- logged_call (PcpHandshake host)
                         (pcp_handshake env host) ;;
             writeLineF "Remote ID: %s" [FS (fst remote)] ;;
             writeLineF "Remote agent: %s" [FS (snd remote)] ;;
             logged_call (PcpQuit host) (pcp_quit env host) ;;
             writeLine "OK")))
      (fun what => writeLineF "Error: %s" [FS what]).

(** *** [Commands::system] *)

Definition system (fuel : nat) (_cmdline : string) : M unit :=
  try_catch
    (words <- lift (command_words _cmdline) ;;
     match words with
     | [] => writeLine "Error: Empty command line"
     | cmd :: args =>
         if String.eqb cmd "log" then log fuel args
         else if String.eqb cmd "nslookup" then nslookup args
         else if String.eqb cmd "helo" then helo args
         else if String.eqb cmd "filter" then filter args
         else if String.eqb cmd "get" then get args
         else if String.eqb cmd "chan" then chan args
         else if String.eqb cmd "echo" then echo args
         else writeLineF "Error: No such command '%s'" [FS cmd]
     end)
    (fun what => writeLineF "Error: %s" [FS what]).

(** The name-to-handler mapping that the cascade of [system] decides. *)
Definition handler_of (fuel : nat) (cmd : string)
    : option (list string -> M unit) :=
  if String.eqb cmd "log" then Some (log fuel)
  else if String.eqb cmd "nslookup" then Some nslookup
  else if String.eqb cmd "helo" then Some helo
  else if String.eqb cmd "filter" then Some filter
  else if String.eqb cmd "get" then Some get
  else if String.eqb cmd "chan" then Some chan
  else if String.eqb cmd "echo" then Some echo
  else None.

End Handlers.
End Commands.

Definition command_names : list string :=
  ["log"; "nslookup"; "helo"; "filter"; "get"; "chan"; "echo"].

(** The [catch] clause of [system]. *)
Definition render_error (env : Env) (what : string) : M unit :=
  Commands.writeLineF env "Error: %s" [FS what].

(** ** Statements under test and sample environments *)

(** The tokens of a word [u"q"v]: a quoted segment on its own, next to the
    unquoted text before and after it. *)
Definition quoted_segment_apart (u q v : string) : Prop :=
  command_words (u +:+ quote q +:+ v) = inr (flush u [] ++ [q] ++ flush v []).

(** Tokenizing, joining with single spaces and tokenizing again gives the
    same tokens, for a line whose tokens hold no space and no quote. *)
Definition retokenizes (cmdline : string) : Prop :=
  ∀ ws, command_words cmdline = inr ws →
        Forall (λ w, unquoted w = true) ws →
        command_words (join " " ws) = inr ws.

(** The chunks the listener pushes in round [k], in push order. *)
Definition round_chunks (env : Env) (k : nat) : list string :=
  map (Commands.listener_chunk env) (delivered_asleep env k)
  ++ map (Commands.listener_chunk env) (delivered_awake env k).

(** The chunks pushed in the rounds before round [n]. *)
Definition chunks_before (env : Env) (n : nat) : list string :=
  flat_map (round_chunks env) (seq 0 n).

(** [cancel] answers true for the first time at its [n]-th poll. *)
Definition first_cancelled (env : Env) (n : nat) : Prop :=
  cancel env n = true ∧ ∀ k, k < n → cancel env k = false.

(** Every chunk pushed before the listener is removed reaches the stream,
    in push order, before [log] returns. *)
Definition no_chunk_lost (env : Env) (fuel : nat) (w : world) : Prop :=
  ∀ n, first_cancelled env n →
       fst (Commands.log env fuel [] w) = Returned tt →
       sink (snd (Commands.log env fuel [] w))
       = sink w ++ map Raw (chunks_before env (S n)).

(** What a computation leaves alone apart from the sink and the clock. *)
Definition same_registry (w w1 : world) : Prop :=
  listeners w1 = listeners w ∧ calls w1 = calls w
  ∧ aux_log_funcs w1 = aux_log_funcs w.

(** Whatever [GeneralException] the dispatched handler throws, [system]
    renders it as one [Error:] line and returns. *)
Definition handler_failure_rendered (env : Env) (fuel : nat)
    (line : string) (w : world) : Prop :=
  ∀ cmd args handler what w1,
    command_words line = inr (cmd :: args) →
    Commands.handler_of env fuel cmd = Some handler →
    handler args w = (Threw (GeneralException what), w1) →
    Commands.system env fuel line w
    = (Returned tt,
       set_sink (λ h, h ++ [Line ("Error: " +:+ c_str what)]) w1).

(** The world after [addListener], with the identifier it returned. *)
Definition registered (w : world) : world :=
  set_calls (λ cs, cs ++ [AddListener (fresh_id (listeners w))])
    (set_listeners (λ ls, ls ++ [fresh_id (listeners w)]) w).

Definition world0 : world := World [] [] 0 [] 0.

(** An environment with the given stream, cancellation, deliveries and
    [http::get]; the other collaborators answer nothing. *)
Definition sample_env (fault : list write -> write -> option thrown)
    (cancelled : nat -> bool) (asleep awake : nat -> list log_event)
    (fetch : string -> thrown + string) : Env :=
  {| stream_fault := fault;
     cancel := cancelled;
     delivered_asleep := asleep;
     delivered_awake := awake;
     getTypeStr := λ t, match t with
                        | T_ERROR => "EROR"
                        | T_WARN => "WARN"
                        | T_LEVEL _ => "INFO"
                        end;
     http_get := fetch;
     IP_tryParse := λ _, None;
     getHostnameByAddress := λ _, None;
     getIPAddresses := λ _, inr [];
     channels := [];
     filters := [];
     F_BAN := 2; F_NETWORK := 4; F_DIRECT := 8; F_PRIVATE := 1;
     Host_fromString := λ t, inr t;
     sock_connect := λ _, Logged [] (inr tt);
     pcp_handshake := λ _, Logged [] (inr ("", ""));
     pcp_quit := λ _, Logged [] (inr tt);
     copied := λ _, ("", "");
     ascii_dump := λ s, s;
     hexdump := λ s, s |}.

Definition no_fault : list write -> write -> option thrown := λ _ _, None.
Definition no_events : nat -> list log_event := λ _, [].
Definition refused : string -> thrown + string :=
  λ _, inl (GeneralException "Connection refused").

(** A healthy stream, cancellation on the first poll. *)
Definition idle_env : Env :=
  sample_env no_fault (λ _, true) no_events no_events refused.

(** One event before the first poll, one during the first sleep;
    cancellation is seen at the second poll. *)
Definition tail_env : Env :=
  sample_env no_fault (λ k, bool_decide (1 ≤ k))
    (λ k, match k with
          | 0 => [LogEvent 0 T_ERROR "first"]
          | 1 => [LogEvent 50 T_WARN "second"]
          | _ => []
          end)
    no_events refused.

(** Two events before the first poll, which reports cancellation. *)
Definition cancelled_env : Env :=
  sample_env no_fault (λ _, true)
    (λ k, match k with
          | 0 => [LogEvent 0 T_ERROR "first"; LogEvent 1 T_WARN "second"]
          | _ => []
          end)
    no_events refused.

(** One event before the first poll on a stream that refuses every write;
    cancellation never comes. *)
Definition broken_env : Env :=
  sample_env (λ _ _, Some (GeneralException "Broken pipe")) (λ _, false)
    (λ k, match k with
          | 0 => [LogEvent 0 T_ERROR "first"]
          | _ => []
          end)
    no_events refused.

(** A stream that refuses the raw writes and accepts the lines; one event
    is delivered before the first poll, which does not report cancellation. *)
Definition raw_refusing_env : Env :=
  sample_env (λ _ c, match c with
                     | Raw _ => Some (GeneralException "Broken pipe")
                     | Line _ => None
                     end)
    (λ _, false)
    (λ k, match k with
          | 0 => [LogEvent 0 T_ERROR "first"]
          | _ => []
          end)
    no_events refused.

(** ** Further notions for the statements about the console *)

(** A line made of spaces only. *)
Fixpoint blank (s : string) : bool :=
  match s with
  | "" => true
  | String c s1 => Ascii.eqb c space && blank s1
  end.

(** What a user types to pass [w] as one token whatever it holds: a
    backslash before every double quote and every backslash, the whole
    between double quotes. *)
Fixpoint escape (w : string) : string :=
  match w with
  | "" => ""
  | String c w1 =>
      if Ascii.eqb c dquote || Ascii.eqb c backslash
      then String backslash (String c (escape w1))
      else String c (escape w1)
  end.

Definition quoted_line (ws : list string) : string :=
  join " " (map (λ w, quote (escape w)) ws).

(** The scanner has read something that will show in the result. *)
Definition started (st : scanner) : Prop :=
  sc_words st ≠ [] ∨ nonempty (sc_word st) = true
  ∨ mode_region (sc_mode st) ≠ Outside.

(** The result of a scan with [pre] put before its tokens. *)
Definition prepend (pre : list string) (r : thrown + list string)
    : thrown + list string :=
  match r with
  | inl e => inl e
  | inr ws => inr (pre ++ ws)
  end.

(** A computation that, whenever it comes back — by return or by a thrown
    failure — leaves the subscriptions of the event source and
    [AUX_LOG_FUNC_VECTOR] as it found them. *)
Definition tidy {A} (m : M A) : Prop :=
  ∀ w, (m w).1 ≠ Running → (m w).1 ≠ Terminated →
       listeners (m w).2 = listeners w
       ∧ aux_log_funcs (m w).2 = aux_log_funcs w.




(** The line [echo -v] writes for the [k]-th positional, counted from
    [i]. *)
Definition numbered_line (i : Z) (k : nat) (word : string) : write :=
  Line ("[" +:+ pretty (i + Z.of_nat k)%Z +:+ "] " +:+ c_str word).

Definition channel_line (it : channel_info) : write :=
  Line (c_str (getName it) +:+ " " +:+ c_str (getID_str it) +:+ " "
        +:+ c_str (getStatusStr it)).


(** What [nslookup NAME] writes on a stream that accepts it. *)
Definition nslookup_lines (env : Env) (name : string) : list write :=
  match IP_tryParse env name with
  | Some ip =>
      match getHostnameByAddress env ip with
      | Some out => [Line out]
      | None => [Line ("Error: '" +:+ c_str name +:+ "' not found")]
      end
  | None =>
      match getIPAddresses env name with
      | inr ips => map Line ips
      | inl (GeneralException what) =>
          [Line ("Error: '" +:+ c_str name +:+ "' not found: "
                 +:+ c_str what)]
      | inl (OtherException _) => []
      end
  end.

Definition nslookup_call (env : Env) (name : string) : call :=
  match IP_tryParse env name with
  | Some ip => GetHostnameByAddress ip
  | None => GetIPAddresses name
  end.

(** An environment with two channels, two filters, a resolver that knows
    [localhost] and [127.0.0.1], and a web server with one page. *)
Definition busy_env : Env :=
  {| stream_fault := no_fault;
     cancel := λ _, true;
     delivered_asleep := no_events;
     delivered_awake := no_events;
     getTypeStr := λ _, "INFO";
     http_get := λ url, if String.eqb url "http://localhost/"
                        then inr "<html></html>"
                        else inl (OtherException "std::bad_alloc");
     IP_tryParse := λ s, if String.eqb s "127.0.0.1" then Some 2130706433%N
                         else None;
     getHostnameByAddress := λ ip, if (ip =? 2130706433)%N
                                   then Some "localhost" else None;
     getIPAddresses := λ name,
       if String.eqb name "localhost" then inr ["127.0.0.1"; "::1"]
       else inl (GeneralException "Name or service not known");
     channels := [ {| getName := "News"; getID_str := "01AB";
                      getStatusStr := "RECEIVE" |};
                   {| getName := "Music"; getID_str := "02CD";
                      getStatusStr := "IDLE" |} ];
     filters := [ {| getPattern := "255.255.255.255"; flags := 2 |};
                  {| getPattern := "192.168.0.0/16"; flags := 13 |} ];
     F_BAN := 2; F_NETWORK := 4; F_DIRECT := 8; F_PRIVATE := 1;
     Host_fromString := λ t, inr t;
     sock_connect := λ _, Logged [] (inr tt);
     pcp_handshake := λ _,
       Logged [(T_WARN, "old version")]
         (inl (GeneralException "Handshake failed"));
     pcp_quit := λ _, Logged [] (inr tt);
     copied := λ _, ("pcp", "");
     ascii_dump := λ s, s;
     hexdump := λ s, s |}.

(** The characters held by a sequence of tokens. *)
Definition tokens_length (ws : list string) : nat :=
  foldr (λ w n, String.length w + n) 0 ws.

(** A stream that accepts one write and refuses the following ones; two
    events before the first poll, cancellation at the third poll. *)
Definition flaky_env : Env :=
  sample_env (λ h _, if length h =? 0 then None
                     else Some (GeneralException "Broken pipe"))
    (λ k, bool_decide (2 ≤ k))
    (λ k, match k with
          | 0 => [LogEvent 0 T_ERROR "first"; LogEvent 1 T_WARN "second"]
          | _ => []
          end)
    no_events refused.


(** * Properties *)

(** ** Strings *)

Lemma append_cons c (s t : string) : String c s +:+ t = String c (s +:+ t).
Proof. reflexivity. Qed.

Lemma append_nil_r (s : string) : s +:+ "" = s.
Proof.
  induction s as [|c s IH]; [reflexivity |].
  rewrite append_cons. by f_equal.
Qed.

Lemma append_assoc (s t u : string) : (s +:+ t) +:+ u = s +:+ (t +:+ u).
Proof.
  induction s as [|c s IH]; [reflexivity |].
  rewrite !append_cons. by f_equal.
Qed.

Lemma quote_append (q v : string) :
  quote q +:+ v = String dquote (q +:+ String dquote v).
Proof. unfold quote. by rewrite !append_cons, append_assoc. Qed.

Lemma push_char_append (word : string) (c : ascii) (u : string) :
  push_char word c +:+ u = word +:+ String c u.
Proof. unfold push_char. by rewrite append_assoc. Qed.

Lemma has_char_false_cons c d s :
  has_char c (String d s) = false →
  Ascii.eqb d c = false ∧ has_char c s = false.
Proof. simpl. intros H. by apply orb_false_iff in H. Qed.

Lemma c_str_id (s : string) : has_char NUL s = false → c_str s = s.
Proof.
  induction s as [|c s IH]; simpl; [reflexivity |].
  intros H. apply orb_false_iff in H as [Hc Hs].
  rewrite Hc. by rewrite IH.
Qed.

(** ** The tokenizer *)

Lemma words_loop_cons c p1 word words past_end :
  words_loop (String c p1) word words past_end
  = if Ascii.eqb c space then skip_from (flush word words) past_end p1
    else if Ascii.eqb c dquote then quoted_from words past_end p1 word
    else words_loop p1 (push_char word c) words past_end.
Proof. reflexivity. Qed.

Lemma skip_from_cons words1 past_end d q1 :
  skip_from words1 past_end (String d q1)
  = if Ascii.eqb d space then skip_from words1 past_end q1
    else words_loop (String d q1) "" words1 past_end.
Proof. reflexivity. Qed.

Lemma quoted_from_cons words past_end d q1 word :
  quoted_from words past_end (String d q1) word
  = if Ascii.eqb d backslash then
      match q1 with
      | "" =>
          (past_end, inl (FormatException "Premature end of escaped character"))
      | String e q2 => quoted_from words past_end q2 (push_char word e)
      end
    else if Ascii.eqb d dquote then
      words_loop q1 "" (words ++ [word]) past_end
    else quoted_from words past_end q1 (push_char word d).
Proof. reflexivity. Qed.

(** The space loop and the outer loop take the same step on a character;
    they differ at the end of the input only. *)
Lemma scan_step_spaces word words c :
  scan_step (Scanner InSpaces word words) c
  = scan_step (Scanner InWord word words) c.
Proof. reflexivity. Qed.

(** The loops of [command_words] and the scanner agree, from each of the
    four places the control can be in. *)
Lemma loops_scan (p : string) :
  (∀ word words past_end,
      words_loop p word words past_end
      = scan_finish past_end (scan_run (Scanner InWord word words) p))
  ∧ (∀ words1 past_end,
      skip_from words1 past_end p
      = scan_finish past_end (scan_run (Scanner InSpaces "" words1) p))
  ∧ (∀ word words past_end,
      quoted_from words past_end p word
      = scan_finish past_end (scan_run (Scanner InQuoted word words) p))
  ∧ (∀ word words past_end,
      match p with
      | "" =>
          (past_end, inl (FormatException "Premature end of escaped character"))
      | String e q2 => quoted_from words past_end q2 (push_char word e)
      end
      = scan_finish past_end (scan_run (Scanner AfterBackslash word words) p)).
Proof.
  induction p as [|c p (IHword & IHskip & IHquoted & IHesc)].
  - repeat split; reflexivity.
  - repeat split.
    + intros word words past_end. rewrite words_loop_cons. simpl scan_run.
      unfold scan_step; simpl.
      destruct (Ascii.eqb c space); [apply IHskip |].
      destruct (Ascii.eqb c dquote); [apply IHquoted | apply IHword].
    + intros words1 past_end. rewrite skip_from_cons, words_loop_cons.
      simpl scan_run. unfold scan_step; simpl.
      destruct (Ascii.eqb c space); [apply IHskip |].
      destruct (Ascii.eqb c dquote); [apply IHquoted | apply IHword].
    + intros word words past_end. rewrite quoted_from_cons.
      simpl scan_run. unfold scan_step; simpl.
      destruct (Ascii.eqb c backslash); [apply IHesc |].
      destruct (Ascii.eqb c dquote); [apply IHword | apply IHquoted].
    + intros word words past_end. simpl scan_run. apply IHquoted.
Qed.

Lemma words_loop_scan p word words past_end :
  words_loop p word words past_end
  = scan_finish past_end (scan_run (Scanner InWord word words) p).
Proof. apply loops_scan. Qed.

Lemma command_words_scan cmdline :
  command_words cmdline
  = snd (scan_finish false (scan_run (Scanner InWord "" []) cmdline)).
Proof. unfold command_words. by rewrite words_loop_scan. Qed.

Lemma reads_past_end_scan cmdline :
  reads_past_end cmdline
  = fst (scan_finish false (scan_run (Scanner InWord "" []) cmdline)).
Proof. unfold reads_past_end. by rewrite words_loop_scan. Qed.

Lemma scan_run_cons st c p :
  scan_run st (String c p) = scan_run (scan_step st c) p.
Proof. reflexivity. Qed.

Lemma scan_run_append st s t :
  scan_run st (s +:+ t) = scan_run (scan_run st s) t.
Proof.
  revert st. induction s as [|c s IH]; intros st; simpl; [done | apply IH].
Qed.

Lemma scan_step_region st c :
  mode_region (sc_mode (scan_step st c))
  = region_step (mode_region (sc_mode st)) c.
Proof.
  destruct st as [m word words]. unfold scan_step. simpl.
  destruct m; simpl;
    repeat match goal with
           | |- context [Ascii.eqb c ?d] => destruct (Ascii.eqb c d) eqn:?
           end; simpl; try reflexivity.
  (* a space is not a double quote *)
  apply Ascii.eqb_eq in Heqb. subst c. discriminate.
  apply Ascii.eqb_eq in Heqb. subst c. discriminate.
Qed.

Lemma scan_run_region st s :
  mode_region (sc_mode (scan_run st s))
  = region_after (mode_region (sc_mode st)) s.
Proof.
  revert st. induction s as [|c s IH]; intros st; simpl; [reflexivity |].
  by rewrite IH, scan_step_region.
Qed.

(** Unquoted text is accumulated into the current word. *)
Lemma scan_run_unquoted u word words :
  unquoted u = true →
  scan_run (Scanner InWord word words) u = Scanner InWord (word +:+ u) words.
Proof.
  revert word. induction u as [|c u IH]; intros word Hu.
  - simpl. by rewrite append_nil_r.
  - unfold unquoted in Hu. apply andb_true_iff in Hu as [Hs Hq].
    apply negb_true_iff, has_char_false_cons in Hs as [Hcs Hs].
    apply negb_true_iff, has_char_false_cons in Hq as [Hcq Hq].
    simpl scan_run. unfold scan_step; simpl.
    fold space in Hcs. fold dquote in Hcq. rewrite Hcs, Hcq.
    rewrite IH, push_char_append; [reflexivity |].
    unfold unquoted. by rewrite Hs, Hq.
Qed.

(** Text without quote or backslash, read inside a quoted region. *)
Lemma scan_run_plain_quoted q word words :
  plain_quoted q = true →
  scan_run (Scanner InQuoted word words) q
  = Scanner InQuoted (word +:+ q) words.
Proof.
  revert word. induction q as [|c q IH]; intros word Hq.
  - simpl. by rewrite append_nil_r.
  - unfold plain_quoted in Hq. apply andb_true_iff in Hq as [Hd Hb].
    apply negb_true_iff, has_char_false_cons in Hd as [Hcd Hd].
    apply negb_true_iff, has_char_false_cons in Hb as [Hcb Hb].
    simpl scan_run. unfold scan_step; simpl.
    fold backslash in Hcb. fold dquote in Hcd. rewrite Hcb, Hcd.
    rewrite IH, push_char_append; [reflexivity |].
    unfold plain_quoted. by rewrite Hd, Hb.
Qed.

Lemma bare_unquoted w :
  bare w = true → unquoted w = true ∧ nonempty w = true.
Proof.
  unfold bare, unquoted. intros H.
  apply andb_true_iff in H as [H Hq]. apply andb_true_iff in H as [Hn Hs].
  by rewrite Hs, Hq.
Qed.

Lemma flush_nonempty word words :
  nonempty word = true → flush word words = words ++ [word].
Proof. unfold flush. by intros ->. Qed.

(** Bare tokens joined by single spaces are read back one by one, from the
    outer loop as from the space loop. *)
Lemma scan_join_bare ws :
  Forall (λ w, bare w = true) ws →
  ∀ words0 m, m = InWord ∨ m = InSpaces →
    snd (scan_finish false (scan_run (Scanner m "" words0) (join " " ws)))
    = inr (words0 ++ ws).
Proof.
  induction 1 as [|w ws Hw Hws IH]; intros words0 m Hm.
  - simpl. rewrite app_nil_r. by destruct Hm as [-> | ->].
  - apply bare_unquoted in Hw as [Hu Hn].
    assert (Hstart : ∀ rest,
      scan_run (Scanner m "" words0) (w +:+ rest)
      = scan_run (Scanner InWord w words0) rest).
    { intros rest. rewrite scan_run_append.
      destruct Hm as [-> | ->].
      - by rewrite scan_run_unquoted.
      - destruct w as [|c w]; [discriminate |].
        simpl scan_run at 2. rewrite scan_step_spaces.
        change (scan_run (scan_step (Scanner InWord "" words0) c) w)
          with (scan_run (Scanner InWord "" words0) (String c w)).
        by rewrite scan_run_unquoted. }
    destruct ws as [|w2 ws].
    + change (join " " [w]) with w. rewrite <- (append_nil_r w) at 1.
      rewrite Hstart. simpl. by rewrite flush_nonempty.
    + change (join " " (w :: w2 :: ws))
        with (w +:+ String space (join " " (w2 :: ws))).
      rewrite Hstart, scan_run_cons.
      change (scan_step (Scanner InWord w words0) space)
        with (Scanner InSpaces "" (flush w words0)).
      rewrite flush_nonempty by done.
      rewrite (IH (words0 ++ [w]) InSpaces) by auto.
      by rewrite <- app_assoc.
Qed.

(** C4 (as stated): the word [a"b"c] is not read as the three tokens [a],
    [b], [c]: the tokenizer returns [ab] and [c], the quoted segment joined
    to the unquoted text before it. *)
Lemma quoted_segment_joins_preceding_text :
  ¬ quoted_segment_apart "a" "b" "c"
  ∧ command_words ("a" +:+ quote "b" +:+ "c") = inr ["ab"; "c"].
Proof. split; [intros H; vm_compute in H; discriminate | reflexivity]. Qed.

(** C8 (as stated): the line made of an empty quoted string has one token,
    the empty one, which holds no character at all; joined and tokenized
    again it gives no token. *)
Lemma empty_token_is_not_read_back : ¬ retokenizes (quote "").
Proof.
  intros H. specialize (H [""] eq_refl).
  assert (Hall : Forall (λ w, unquoted w = true) [""]) by (by constructor).
  specialize (H Hall). vm_compute in H. discriminate.
Qed.

(** C8 (amended): when the tokens of a line are not empty and hold no space
    and no double quote, joining them with single spaces and tokenizing
    again yields the same tokens. *)
Theorem tokenization_idempotent (cmdline : string) (ws : list string) :
  command_words cmdline = inr ws →
  Forall (λ w, bare w = true) ws →
  command_words (join " " ws) = inr ws.
Proof.
  intros _ Hws. rewrite command_words_scan.
  by rewrite (scan_join_bare ws Hws [] InWord) by auto.
Qed.

Lemma tokenization_idempotent_witness :
  command_words (join " " ["echo"; "a\b"; "d"]) = inr ["echo"; "a\b"; "d"].
Proof.
  apply (tokenization_idempotent ("  echo " +:+ quote "a\\b" +:+ "  d ")).
  - reflexivity.
  - repeat constructor.
Defined.

(** How tokenization ends is decided by where the end of the input is
    reached. *)
Lemma command_words_region cmdline :
  match region_at_end cmdline with
  | Outside => ∃ ws, command_words cmdline = inr ws
  | InsideQuotes =>
      command_words cmdline
      = inl (FormatException "Premature end of quoted string")
  | AfterEscape =>
      command_words cmdline
      = inl (FormatException "Premature end of escaped character")
  end.
Proof.
  unfold region_at_end. rewrite command_words_scan.
  pose proof (scan_run_region (Scanner InWord "" []) cmdline) as Hr.
  simpl in Hr. rewrite <- Hr.
  destruct (scan_run (Scanner InWord "" []) cmdline) as [[] word words];
    unfold scan_finish; simpl; eauto.
Qed.

Lemma string_snoc (s : string) :
  s = "" ∨ ∃ s1 c, s = s1 +:+ String c "".
Proof.
  induction s as [|d s IH]; [by left | right].
  destruct IH as [-> | (s1 & c & ->)].
  - by exists "", d.
  - by exists (String d s1), c.
Qed.

Lemma scan_step_into_spaces st c :
  sc_mode (scan_step st c) = InSpaces
  ↔ mode_region (sc_mode st) = Outside ∧ c = space.
Proof.
  destruct st as [m word words]. unfold scan_step. simpl.
  destruct m; simpl;
    repeat match goal with
           | |- context [Ascii.eqb c ?d] => destruct (Ascii.eqb_spec c d)
           end; simpl; split; try done; try (by intros [? ?]).
Qed.

(** C10 (the code at the failing inputs): tokenizing a line evaluates [*p]
    at [cmdline.end()], outside the bounds of the input, exactly when the
    line ends in a space that is not inside quotes: the out-of-bounds
    branch of the space-skipping loop is reached. *)
Theorem trailing_space_reads_past_end (cmdline : string) :
  reads_past_end cmdline = true
  ↔ ∃ s, cmdline = s +:+ " " ∧ region_at_end s = Outside.
Proof.
  rewrite reads_past_end_scan.
  assert (Hflag : ∀ st, (scan_finish false st).1 = true
                        ↔ sc_mode st = InSpaces).
  { intros [[] word words]; unfold scan_finish; simpl; split; done. }
  rewrite Hflag. unfold region_at_end. split.
  - intros Hmode. destruct (string_snoc cmdline) as [-> | (s & c & ->)];
      [discriminate |].
    rewrite scan_run_append, scan_run_cons in Hmode. simpl in Hmode.
    apply scan_step_into_spaces in Hmode as [Hout ->].
    exists s. split; [done |].
    by rewrite scan_run_region in Hout.
  - intros (s & -> & Hout).
    rewrite scan_run_append, scan_run_cons. simpl.
    apply scan_step_into_spaces. split; [| done].
    by rewrite scan_run_region.
Qed.

Lemma trailing_space_reads_past_end_witness :
  reads_past_end "echo a " = true.
Proof.
  apply (trailing_space_reads_past_end "echo a ").
  exists "echo a". by split.
Defined.

(** ** The argument splitter *)

Lemma push_rest_app rest positionals :
  push_rest rest positionals = positionals ++ rest.
Proof.
  revert positionals. induction rest as [|a rest IH]; intros positionals; simpl.
  - by rewrite app_nil_r.
  - by rewrite IH, <- app_assoc.
Qed.

Lemma is_option_name_spec names a :
  is_option_name names a = true ↔ a ∈ names.
Proof. unfold is_option_name. apply bool_decide_eq_true. Qed.

Lemma dashes_split args :
  ("--" ∉ before_dashes args)
  ∧ (args = before_dashes args ++ "--" :: after_dashes args
     ∨ (args = before_dashes args ∧ after_dashes args = [])).
Proof.
  induction args as [|a args [IHnot IHsplit]]; simpl.
  - split; [apply not_elem_of_nil | by right].
  - destruct (String.eqb a "--") eqn:Ha.
    + apply String.eqb_eq in Ha as ->.
      split; [apply not_elem_of_nil | by left].
    + apply String.eqb_neq in Ha. split.
      * rewrite not_elem_of_cons. split; [congruence | done].
      * destruct IHsplit as [IH | [IH1 IH2]].
        -- left. simpl. by f_equal.
        -- right. split; [by f_equal | done].
Qed.

Lemma parse_loop_spec names args options positionals :
  (parse_loop names args options positionals).2
  = positionals ++ filter (λ a, a ∉ names) (before_dashes args)
      ++ after_dashes args
  ∧ ∀ k, (parse_loop names args options positionals).1 !! k
         = if bool_decide (k ∈ names ∧ k ∈ before_dashes args)
           then Some true else options !! k.
Proof.
  revert options positionals.
  induction args as [|a args IH]; intros options positionals; simpl.
  - split; [by rewrite app_nil_r |].
    intros k. rewrite bool_decide_eq_false_2; [done |].
    intros [_ H]. by apply not_elem_of_nil in H.
  - destruct (String.eqb a "--") eqn:Ha; simpl.
    + split; [by rewrite push_rest_app |].
      intros k. rewrite bool_decide_eq_false_2; [done |].
      intros [_ H]. by apply not_elem_of_nil in H.
    + destruct (is_option_name names a) eqn:Hopt.
      * apply is_option_name_spec in Hopt.
        destruct (IH (<[a:=true]> options) positionals) as [IHp IHo].
        split.
        -- rewrite IHp. rewrite filter_cons_False; [done |]. by intros H.
        -- intros k. rewrite IHo.
           destruct (decide (k = a)) as [-> | Hk].
           ++ rewrite lookup_insert_eq.
              rewrite (bool_decide_eq_true_2 (a ∈ names ∧ a ∈ a :: _));
                [| split; [done | apply list_elem_of_here]].
              by case_bool_decide.
           ++ rewrite lookup_insert_ne by done.
              apply (f_equal (λ b : bool,
                        if b then Some true else options !! k)).
              apply bool_decide_ext. rewrite elem_of_cons.
              intuition congruence.
      * assert (Hnot : a ∉ names).
        { intros H. apply is_option_name_spec in H. congruence. }
        destruct (IH options (positionals ++ [a])) as [IHp IHo].
        split.
        -- rewrite IHp. rewrite filter_cons_True by done.
           by rewrite <- app_assoc.
        -- intros k. rewrite IHo.
           apply (f_equal (λ b : bool, if b then Some true else options !! k)).
           apply bool_decide_ext. rewrite elem_of_cons.
           intuition congruence.
Qed.

(** C6: the splitter scans left to right; the tokens after the first [--]
    go verbatim to the positionals and [--] itself does not; before it, a
    recognized flag is set true in the option set and is no positional, and
    every other token is a positional; the positionals keep the order of
    the arguments. *)
Theorem parse_options_splits (args option_names : list string) :
  (parse_options args option_names).2
  = filter (λ a, a ∉ option_names) (before_dashes args) ++ after_dashes args
  ∧ (∀ k, (parse_options args option_names).1 !! k
          = if bool_decide (k ∈ option_names ∧ k ∈ before_dashes args)
            then Some true else None)
  ∧ ("--" ∉ before_dashes args)
  ∧ (args = before_dashes args ++ "--" :: after_dashes args
     ∨ (args = before_dashes args ∧ after_dashes args = []))
  ∧ sublist (parse_options args option_names).2 args.
Proof.
  unfold parse_options.
  destruct (parse_loop_spec option_names args ∅ []) as [Hp Ho].
  destruct (dashes_split args) as [Hnot Hsplit].
  simpl in Hp. split; [done |]. split; [| split; [done | split; [done |]]].
  - intros k. rewrite Ho. by rewrite lookup_empty.
  - rewrite Hp.
    destruct Hsplit as [H | [H1 H2]].
    + rewrite H at 3. apply sublist_app; [apply sublist_filter |].
      by apply sublist_cons.
    + rewrite H2, app_nil_r. rewrite H1 at 2. apply sublist_filter.
Qed.

Example parse_options_example :
  parse_options ["-v"; "a"; "--"; "-v"; "b"] ["-v"]
  = ({["-v" := true]}, ["a"; "-v"; "b"]).
Proof. by vm_compute. Qed.

(** ** Formats *)

Lemma format_error what :
  format "Error: %s" [FS what] = "Error: " +:+ c_str what.
Proof. simpl. by rewrite append_nil_r. Qed.

Lemma format_no_such_command cmd :
  format "Error: No such command '%s'" [FS cmd]
  = "Error: No such command '" +:+ c_str cmd +:+ "'".
Proof. reflexivity. Qed.

(** ** Stream, listeners and the frame of the polling loop *)

Section Console.

Variable env : Env.

Lemma stream_write_accepted c w :
  stream_fault env (sink w) c = None →
  Commands.stream_write env c w = (Returned tt, set_sink (λ h, h ++ [c]) w).
Proof. unfold Commands.stream_write. by intros ->. Qed.

Lemma stream_write_refused c w e :
  stream_fault env (sink w) c = Some e →
  Commands.stream_write env c w = (Threw e, w).
Proof. unfold Commands.stream_write. by intros ->. Qed.

Lemma same_registry_refl w : same_registry w w.
Proof. by repeat split. Qed.

Lemma same_registry_trans w w1 w2 :
  same_registry w w1 → same_registry w1 w2 → same_registry w w2.
Proof.
  intros (H1 & H2 & H3) (K1 & K2 & K3).
  repeat split; congruence.
Qed.

Lemma stream_write_registry c w :
  same_registry w (Commands.stream_write env c w).2.
Proof.
  unfold Commands.stream_write.
  by destruct (stream_fault env (sink w) c).
Qed.

Lemma drain_registry queue w :
  same_registry w (Commands.drain env queue w).2.
Proof.
  revert w. induction queue as [|chunk rest IH]; intros w; simpl.
  - apply same_registry_refl.
  - unfold bind, Commands.writeString.
    pose proof (stream_write_registry (Raw chunk) w) as Hw.
    destruct (Commands.stream_write env (Raw chunk) w)
      as [[[] | e | |] w1]; simpl in *; try done.
    eapply same_registry_trans; [exact Hw | apply IH].
Qed.

Lemma log_loop_registry fuel k queue w :
  same_registry w (Commands.log_loop env fuel k queue w).2.
Proof.
  revert k queue w. induction fuel as [|fuel IH]; intros k queue w; simpl.
  - apply same_registry_refl.
  - destruct (cancel env k); [apply same_registry_refl |].
    unfold bind.
    pose proof (drain_registry
      (Commands.enqueue env
         (Commands.enqueue env queue (delivered_asleep env k))
         (delivered_awake env k)) w) as Hd.
    destruct (Commands.drain env _ w) as [[[] | e | |] w1]; simpl in *;
      try done.
    eapply same_registry_trans; [exact Hd |].
    eapply same_registry_trans; [| apply IH].
    by repeat split.
Qed.

(** The loop leaves once [cancel] has answered true within the fuel. *)
Lemma log_loop_leaves fuel k n queue w :
  cancel env n = true → k ≤ n → n < k + fuel →
  (Commands.log_loop env fuel k queue w).1 ≠ Running.
Proof.
  revert k queue w. induction fuel as [|fuel IH]; intros k queue w Hn Hk Hf.
  - lia.
  - simpl. destruct (cancel env k) eqn:Hc; [done |].
    assert (k ≠ n) by congruence.
    unfold bind.
    destruct (Commands.drain env _ w) as [[[] | e | |] w1] eqn:Hd; simpl;
      [| done | | done].
    + apply IH; [done | lia | lia].
    + exfalso. revert Hd. clear. generalize (Commands.enqueue env
         (Commands.enqueue env queue (delivered_asleep env k))
         (delivered_awake env k)). intros q. revert w.
      induction q as [|c q IHq]; intros w; simpl; [done |].
      unfold bind, Commands.writeString, Commands.stream_write.
      destruct (stream_fault env (sink w) _); [done | apply IHq].
Qed.

(** The loop has no [Defer] of its own: it never ends the process. *)
Lemma drain_not_terminated queue w :
  (Commands.drain env queue w).1 ≠ Terminated.
Proof.
  revert w. induction queue as [|chunk rest IH]; intros w; simpl; [done |].
  unfold bind, Commands.writeString, Commands.stream_write.
  destruct (stream_fault env (sink w) (Raw chunk)); [done | apply IH].
Qed.

Lemma log_loop_not_terminated fuel k queue w :
  (Commands.log_loop env fuel k queue w).1 ≠ Terminated.
Proof.
  revert k queue w. induction fuel as [|fuel IH]; intros k queue w; simpl;
    [done |].
  destruct (cancel env k); [done |]. unfold bind.
  pose proof (drain_not_terminated
    (Commands.enqueue env
       (Commands.enqueue env queue (delivered_asleep env k))
       (delivered_awake env k)) w) as Hd.
  destruct (Commands.drain env _ w) as [[[] | e | |] w1]; simpl in *;
    done.
Qed.

Lemma fresh_id_fresh ids : fresh_id ids ∉ ids.
Proof.
  unfold fresh_id. intros H. apply max_list_elem_of_le in H. lia.
Qed.

Lemma filter_drop_fresh (ids : list nat) id :
  id ∉ ids → filter (λ i, i ≠ id) (ids ++ [id]) = ids.
Proof.
  intros Hid. rewrite filter_app.
  rewrite filter_cons_False, filter_nil, app_nil_r by (by intros H; apply H).
  induction ids as [|i ids IH]; [done |].
  apply not_elem_of_cons in Hid as [Hne Hid].
  rewrite filter_cons_True by done. by rewrite IH.
Qed.

End Console.

(** ** [Commands::log] *)

Lemma log_unfold env fuel argv w :
  Commands.log env fuel argv w
  = match Commands.log_loop env fuel 0 [] (registered w) with
    | (Returned _, w2) =>
        (Returned tt, (removeListener (fresh_id (listeners w)) w2).2)
    | (Threw e, w2) =>
        (Threw e, (removeListener (fresh_id (listeners w)) w2).2)
    | (Running, w2) => (Running, w2)
    | (Terminated, w2) => (Terminated, w2)
    end.
Proof.
  unfold Commands.log, bind, addListener, defer, ret, registered.
  by destruct (Commands.log_loop env fuel 0 [] _) as [[q | e | |] w2].
Qed.

(** C3: whenever [log] leaves — because the poll reported cancellation or
    because a write of the drain threw — the listener it registered on
    entry has been removed exactly once and the subscriptions of the event
    source are what they were before the call; and [log] does leave once
    the cancellation predicate has answered true. *)
Theorem log_deregisters_once (env : Env) (fuel : nat) (argv : list string)
    (w : world) :
  ((∃ n, n < fuel ∧ cancel env n = true) →
   (Commands.log env fuel argv w).1 ≠ Running)
  ∧ ((Commands.log env fuel argv w).1 ≠ Running →
     listeners (Commands.log env fuel argv w).2 = listeners w
     ∧ length (listeners (Commands.log env fuel argv w).2)
       = length (listeners w)
     ∧ calls (Commands.log env fuel argv w).2
       = calls w ++ [AddListener (fresh_id (listeners w));
                     RemoveListener (fresh_id (listeners w))]).
Proof.
  rewrite log_unfold.
  pose proof (log_loop_registry env fuel 0 [] (registered w)) as (Hl & Hc & _).
  pose proof (log_loop_not_terminated env fuel 0 [] (registered w)) as Hlive.
  split.
  - intros (n & Hn & Hcancel).
    pose proof (log_loop_leaves env fuel 0 n [] (registered w) Hcancel)
      as Hleaves.
    destruct (Commands.log_loop env fuel 0 [] (registered w))
      as [[q | e | |] w2]; simpl in *; try done.
    intros _. apply Hleaves; [lia | lia | reflexivity].
  - destruct (Commands.log_loop env fuel 0 [] (registered w))
      as [[q | e | |] w2]; simpl in *; intros Hexit; try done.
    + rewrite Hl, Hc, filter_drop_fresh by apply fresh_id_fresh.
      by rewrite <- app_assoc.
    + rewrite Hl, Hc, filter_drop_fresh by apply fresh_id_fresh.
      by rewrite <- app_assoc.
Qed.

(** Both ways out: cancellation seen at the second poll, and a write that
    throws in the first drain while cancellation never comes. *)
Lemma log_deregisters_once_witness :
  ((Commands.log tail_env 3 [] world0).1 = Returned tt
   ∧ listeners (Commands.log tail_env 3 [] world0).2 = []
   ∧ calls (Commands.log tail_env 3 [] world0).2
     = [AddListener 1; RemoveListener 1])
  ∧ ((Commands.log broken_env 3 [] world0).1
     = Threw (GeneralException "Broken pipe")
     ∧ listeners (Commands.log broken_env 3 [] world0).2 = []
     ∧ calls (Commands.log broken_env 3 [] world0).2
       = [AddListener 1; RemoveListener 1]).
Proof.
  split.
  - destruct (log_deregisters_once tail_env 3 [] world0) as [_ H].
    destruct H as (Hl & _ & Hc); [by vm_compute |].
    split; [by vm_compute | by split].
  - destruct (log_deregisters_once broken_env 3 [] world0) as [_ H].
    destruct H as (Hl & _ & Hc); [by vm_compute |].
    split; [by vm_compute | by split].
Defined.

Section Drain.

Variable env : Env.
Hypothesis healthy : ∀ h c, stream_fault env h c = None.

Lemma drain_accepted queue w :
  Commands.drain env queue w
  = (Returned tt, set_sink (λ h, h ++ map Raw queue) w).
Proof.
  revert w. induction queue as [|chunk rest IH]; intros w; simpl.
  - unfold ret, set_sink. destruct w. simpl. by rewrite app_nil_r.
  - unfold bind, Commands.writeString.
    rewrite stream_write_accepted by apply healthy.
    rewrite IH. unfold set_sink. simpl. by rewrite <- app_assoc.
Qed.

(** With a healthy stream, [rounds] polls answer false and the next one
    true: the loop drains the chunks of those rounds and leaves with the
    chunks of the last round still in the queue. *)
Lemma log_loop_rounds rounds :
  ∀ fuel k w,
    (∀ j, j < rounds → cancel env (k + j) = false) →
    cancel env (k + rounds) = true →
    rounds < fuel →
    Commands.log_loop env fuel k [] w
    = (Returned (round_chunks env (k + rounds)),
       World (sink w ++ map Raw (flat_map (round_chunks env) (seq k rounds)))
         (listeners w) (aux_log_funcs w) (calls w)
         (clock w + 100 * rounds)).
Proof.
  induction rounds as [|rounds IH]; intros fuel k w Hfalse Htrue Hfuel.
  - destruct fuel as [|fuel]; [lia |]. simpl.
    rewrite Nat.add_0_r in Htrue. rewrite Htrue. unfold ret.
    rewrite !Nat.add_0_r, app_nil_r. by destruct w.
  - destruct fuel as [|fuel]; [lia |].
    assert (Hk : cancel env k = false).
    { rewrite <- (Nat.add_0_r k). apply Hfalse. lia. }
    simpl Commands.log_loop. rewrite Hk.
    unfold bind at 1. rewrite drain_accepted.
    unfold bind at 1, sys_sleep.
    rewrite (IH fuel (S k)).
    + f_equal; [by rewrite Nat.add_succ_r |].
      unfold set_clock, set_sink, Commands.enqueue, round_chunks. simpl.
      f_equal; [| lia].
      rewrite <- !app_assoc, !map_app. by rewrite <- !app_assoc.
    + intros j Hj. rewrite <- Hfalse with (j := S j) by lia. f_equal. lia.
    + rewrite <- Htrue. f_equal. lia.
    + lia.
Qed.

End Drain.

(** C1 (as stated): one chunk is pushed before the first poll and drained;
    a second one is pushed during the sleep that follows; the second poll
    reports cancellation and [log] returns: the second chunk was pushed
    before the listener was removed and never reaches the stream.  And
    when two chunks are pushed before the first poll and that poll already
    reports cancellation, no drain takes place and neither is written. *)
Lemma log_drops_last_round :
  ¬ no_chunk_lost tail_env 3 world0
  ∧ ¬ no_chunk_lost cancelled_env 3 world0.
Proof.
  split; intros H.
  - specialize (H 1).
    assert (Hfirst : first_cancelled tail_env 1).
    { split; [reflexivity |]. intros [|k] Hk; [reflexivity | lia]. }
    specialize (H Hfirst eq_refl). vm_compute in H. discriminate.
  - specialize (H 0).
    assert (Hfirst : first_cancelled cancelled_env 0).
    { split; [reflexivity |]. intros k Hk. lia. }
    specialize (H Hfirst eq_refl). vm_compute in H. discriminate.
Qed.

(** C1 (amended): with a stream that accepts the writes, when [cancel]
    first answers true at its [n]-th poll, [log] returns having written
    the chunks pushed in the rounds before that poll, each by the drain of
    its round and in push order; the chunks pushed after the last drain
    are still in the queue when the loop is left and are not written. *)
Theorem log_writes_drained_rounds (env : Env) (fuel n : nat)
    (argv : list string) (w : world) :
  (∀ h c, stream_fault env h c = None) →
  first_cancelled env n →
  n < fuel →
  (Commands.log env fuel argv w).1 = Returned tt
  ∧ sink (Commands.log env fuel argv w).2
    = sink w ++ map Raw (chunks_before env n)
  ∧ (Commands.log_loop env fuel 0 [] w).1 = Returned (round_chunks env n).
Proof.
  intros Hhealthy [Htrue Hfalse] Hfuel.
  rewrite log_unfold.
  rewrite !(log_loop_rounds env Hhealthy n) by (simpl; auto).
  simpl. by repeat split.
Qed.

Lemma log_writes_drained_rounds_witness :
  sink (Commands.log tail_env 3 [] world0).2
  = [Raw ("[EROR] first" +:+ String newline "")]
  ∧ (Commands.log_loop tail_env 3 0 [] world0).1
    = Returned ["[WARN] second" +:+ String newline ""].
Proof.
  assert (Hfirst : first_cancelled tail_env 1).
  { split; [reflexivity |]. intros [|k] Hk; [reflexivity | lia]. }
  destruct (log_writes_drained_rounds tail_env 3 1 [] world0
              (λ _ _, eq_refl) Hfirst) as (_ & Hsink & Hleft); [lia |].
  split; [exact Hsink | exact Hleft].
Defined.

(** ** Argument counts *)

Lemma not_one_eqb n : n ≠ 1 → negb (n =? 1) = true.
Proof. intros H. apply negb_true_iff, Nat.eqb_neq, H. Qed.

(** C7: with a positional count other than one, [nslookup], [get] and
    [helo] (after [-v] is taken out) do nothing but write their usage line:
    the handler is that one [writeLine], so no collaborator is called; on a
    stream that accepts the line it returns, with the line added to the
    sink and the rest of the world, the record of collaborator calls
    included, as it was. *)
Theorem wrong_count_prints_usage (env : Env) (argv : list string)
    (w : world) :
  (length argv ≠ 1 →
   Commands.nslookup env argv = Commands.writeLine env "Usage: nslookup NAME"
   ∧ (stream_fault env (sink w) (Line "Usage: nslookup NAME") = None →
      Commands.nslookup env argv w
      = (Returned tt, set_sink (λ h, h ++ [Line "Usage: nslookup NAME"]) w)))
  ∧ (length argv ≠ 1 →
     Commands.get env argv = Commands.writeLine env "Usage: get URL"
     ∧ (stream_fault env (sink w) (Line "Usage: get URL") = None →
        Commands.get env argv w
        = (Returned tt, set_sink (λ h, h ++ [Line "Usage: get URL"]) w)))
  ∧ (length (parse_options argv ["-v"]).2 ≠ 1 →
     Commands.helo env argv = Commands.writeLine env "Usage: helo [-v] HOST"
     ∧ (stream_fault env (sink w) (Line "Usage: helo [-v] HOST") = None →
        Commands.helo env argv w
        = (Returned tt,
           set_sink (λ h, h ++ [Line "Usage: helo [-v] HOST"]) w))).
Proof.
  split; [| split]; intros Hn.
  - assert (H : Commands.nslookup env argv
                = Commands.writeLine env "Usage: nslookup NAME").
    { unfold Commands.nslookup. by rewrite not_one_eqb. }
    rewrite H. split; [done | apply stream_write_accepted].
  - assert (H : Commands.get env argv
                = Commands.writeLine env "Usage: get URL").
    { unfold Commands.get. by rewrite not_one_eqb. }
    rewrite H. split; [done | apply stream_write_accepted].
  - assert (H : Commands.helo env argv
                = Commands.writeLine env "Usage: helo [-v] HOST").
    { unfold Commands.helo.
      destruct (parse_options argv ["-v"]) as [options positionals].
      by rewrite not_one_eqb. }
    rewrite H. split; [done | apply stream_write_accepted].
Qed.

Lemma wrong_count_prints_usage_witness :
  Commands.nslookup idle_env ["a"; "b"] world0
  = (Returned tt, World [Line "Usage: nslookup NAME"] [] 0 [] 0)
  ∧ Commands.get idle_env ["-v"; "http://x"] world0
    = (Returned tt, World [Line "Usage: get URL"] [] 0 [] 0)
  ∧ Commands.helo idle_env ["-v"] world0
    = (Returned tt, World [Line "Usage: helo [-v] HOST"] [] 0 [] 0).
Proof.
  split; [| split].
  - apply (wrong_count_prints_usage idle_env ["a"; "b"] world0);
      [simpl; lia | reflexivity].
  - apply (wrong_count_prints_usage idle_env ["-v"; "http://x"] world0);
      [simpl; lia | reflexivity].
  - apply (wrong_count_prints_usage idle_env ["-v"] world0);
      [vm_compute; lia | reflexivity].
Defined.

(** ** [Commands::get] *)

(** C9 (the code at the failing input): when [http::get] throws, [get]
    renders the failure with [writeStringF]: the sink receives a raw write
    of [Error: ] and the message, without a line terminator. *)
Theorem get_failure_is_raw_write (env : Env) (url what : string)
    (w : world) :
  http_get env url = inl (GeneralException what) →
  stream_fault env (sink w) (Raw ("Error: " +:+ c_str what)) = None →
  Commands.get env [url] w
  = (Returned tt,
     set_sink (λ h, h ++ [Raw ("Error: " +:+ c_str what)])
       (set_calls (λ cs, cs ++ [HttpGet url]) w)).
Proof.
  intros Hget Hok.
  unfold Commands.get, bind, try_catch, record_call, lift. simpl.
  rewrite Hget. simpl.
  unfold Commands.writeStringF, Commands.writeString.
  rewrite format_error, stream_write_accepted by exact Hok.
  reflexivity.
Qed.

Lemma get_failure_is_raw_write_witness :
  Commands.get idle_env ["http://unreachable/"] world0
  = (Returned tt,
     World [Raw "Error: Connection refused"] [] 0
       [HttpGet "http://unreachable/"] 0).
Proof.
  exact (get_failure_is_raw_write idle_env "http://unreachable/"
           "Connection refused" world0 eq_refl eq_refl).
Defined.

(** ** [Commands::system] *)

Lemma system_dispatch env fuel line w cmd args :
  command_words line = inr (cmd :: args) →
  Commands.system env fuel line w
  = try_catch
      (match Commands.handler_of env fuel cmd with
       | Some h => h args
       | None =>
           Commands.writeLineF env "Error: No such command '%s'" [FS cmd]
       end)
      (render_error env) w.
Proof.
  intros Hw. unfold Commands.system, Commands.handler_of, try_catch, bind, lift.
  rewrite Hw. simpl.
  repeat match goal with
         | |- context [String.eqb cmd ?name] => destruct (String.eqb cmd name)
         end; reflexivity.
Qed.

(** The mapping knows exactly the names of [command_names]; the comparison
    is [std::string]'s [==], exact and case-sensitive. *)
Lemma handler_of_unknown env fuel cmd :
  Commands.handler_of env fuel cmd = None ↔ cmd ∉ command_names.
Proof.
  unfold Commands.handler_of, command_names. rewrite !not_elem_of_cons.
  repeat match goal with
         | |- context [String.eqb cmd ?name] =>
             destruct (String.eqb_spec cmd name)
         end; split; try discriminate; try tauto.
  intros _. repeat split; try done. apply not_elem_of_nil.
Qed.

Lemma render_error_accepted env what w :
  stream_fault env (sink w) (Line ("Error: " +:+ c_str what)) = None →
  render_error env what w
  = (Returned tt, set_sink (λ h, h ++ [Line ("Error: " +:+ c_str what)]) w).
Proof.
  intros Hok. unfold render_error, Commands.writeLineF, Commands.writeLine.
  rewrite format_error. by apply stream_write_accepted.
Qed.

Lemma tokenizer_messages line what :
  command_words line = inl (GeneralException what) →
  what = "Premature end of quoted string"
  ∨ what = "Premature end of escaped character".
Proof.
  intros H. pose proof (command_words_region line) as Hr.
  destruct (region_at_end line).
  - destruct Hr as [ws Hws]. congruence.
  - left. unfold FormatException in Hr. congruence.
  - right. unfold FormatException in Hr. congruence.
Qed.

Lemma system_tokenizer_failure env fuel line w what :
  command_words line = inl (GeneralException what) →
  stream_fault env (sink w) (Line ("Error: " +:+ what)) = None →
  Commands.system env fuel line w
  = (Returned tt, set_sink (λ h, h ++ [Line ("Error: " +:+ what)]) w).
Proof.
  intros Hw Hok.
  assert (Hc : c_str what = what).
  { by destruct (tokenizer_messages line what Hw) as [-> | ->]. }
  unfold Commands.system, try_catch, bind, lift. rewrite Hw. simpl.
  change (render_error env what w = (Returned tt,
            set_sink (λ h, h ++ [Line ("Error: " +:+ what)]) w)).
  rewrite render_error_accepted; rewrite Hc; done.
Qed.

Lemma render_error_refused env what w e :
  stream_fault env (sink w) (Line ("Error: " +:+ c_str what)) = Some e →
  render_error env what w = (Threw e, w).
Proof.
  intros Hno. unfold render_error, Commands.writeLineF, Commands.writeLine.
  rewrite format_error. by apply stream_write_refused.
Qed.

(** C2 (as stated): on a stream that refuses every write, [log] pushes one
    chunk, its drain throws the [GeneralException] of the stream, and
    [system] catches it; the [Error:] line it then writes is refused too,
    from inside the [catch] clause: [system] writes nothing and the failure
    leaves it. *)
Lemma system_propagates_on_broken_stream :
  ¬ handler_failure_rendered broken_env 3 "log" world0
  ∧ Commands.system broken_env 3 "log" world0
    = (Threw (GeneralException "Broken pipe"),
       World [] [] 0 [AddListener 1; RemoveListener 1] 0).
Proof.
  split; [| reflexivity].
  intros H.
  specialize (H "log" [] (Commands.log broken_env 3) "Broken pipe"
                (World [] [] 0 [AddListener 1; RemoveListener 1] 0)
                eq_refl eq_refl eq_refl).
  vm_compute in H. discriminate.
Qed.

(** C2 (amended): the four ways [system] ends in an error line, on a
    stream that accepts that line.  Each time the line is the only thing
    [system] itself writes, and [system] returns: a tokenization failure
    gives [Error: ] and the tokenizer's message; no token gives
    [Error: Empty command line]; a first token that is none of the seven
    names, compared exactly, gives [Error: No such command '...'] with the
    name as [%s] prints it; and a [GeneralException] thrown by the handler
    is caught and gives [Error: ] and its message, after whatever the
    handler had written.  [%s] prints a name or a message up to a NUL
    character, that is all of it for a line of text.  When the stream
    refuses the line that renders the handler's failure, the failure of
    that write leaves [system]: it is thrown from inside the [catch]
    clause. *)
Theorem system_renders_errors (env : Env) (fuel : nat) (line : string)
    (w : world) :
  (∀ what,
      command_words line = inl (GeneralException what) →
      stream_fault env (sink w) (Line ("Error: " +:+ what)) = None →
      Commands.system env fuel line w
      = (Returned tt, set_sink (λ h, h ++ [Line ("Error: " +:+ what)]) w))
  ∧ (command_words line = inr [] →
     stream_fault env (sink w) (Line "Error: Empty command line") = None →
     Commands.system env fuel line w
     = (Returned tt,
        set_sink (λ h, h ++ [Line "Error: Empty command line"]) w))
  ∧ (∀ cmd args,
        command_words line = inr (cmd :: args) →
        cmd ∉ command_names →
        stream_fault env (sink w)
          (Line ("Error: No such command '" +:+ c_str cmd +:+ "'")) = None →
        Commands.system env fuel line w
        = (Returned tt,
           set_sink
             (λ h, h ++ [Line ("Error: No such command '"
                                +:+ c_str cmd +:+ "'")]) w)
        ∧ (has_char NUL cmd = false → c_str cmd = cmd))
  ∧ (∀ cmd args handler what w1,
        command_words line = inr (cmd :: args) →
        Commands.handler_of env fuel cmd = Some handler →
        handler args w = (Threw (GeneralException what), w1) →
        stream_fault env (sink w1) (Line ("Error: " +:+ c_str what)) = None →
        Commands.system env fuel line w
        = (Returned tt,
           set_sink (λ h, h ++ [Line ("Error: " +:+ c_str what)]) w1)
        ∧ (has_char NUL what = false → c_str what = what))
  ∧ (∀ cmd args handler what w1 e,
        command_words line = inr (cmd :: args) →
        Commands.handler_of env fuel cmd = Some handler →
        handler args w = (Threw (GeneralException what), w1) →
        stream_fault env (sink w1) (Line ("Error: " +:+ c_str what))
        = Some e →
        Commands.system env fuel line w = (Threw e, w1)).
Proof.
  split; [| split; [| split; [| split]]].
  - intros what Hw Hok. by apply system_tokenizer_failure.
  - intros Hw Hok.
    unfold Commands.system, try_catch, bind, lift. rewrite Hw. simpl.
    unfold Commands.writeLine. by rewrite stream_write_accepted.
  - intros cmd args Hw Hcmd Hok. split; [| apply c_str_id].
    rewrite (system_dispatch env fuel line w cmd args Hw).
    apply (handler_of_unknown env fuel) in Hcmd. rewrite Hcmd.
    unfold try_catch, Commands.writeLineF, Commands.writeLine.
    rewrite format_no_such_command. by rewrite stream_write_accepted.
  - intros cmd args handler what w1 Hw Hh Hthrow Hok.
    split; [| apply c_str_id].
    rewrite (system_dispatch env fuel line w cmd args Hw), Hh.
    unfold try_catch. rewrite Hthrow.
    by apply render_error_accepted.
  - intros cmd args handler what w1 e Hw Hh Hthrow Hno.
    rewrite (system_dispatch env fuel line w cmd args Hw), Hh.
    unfold try_catch. rewrite Hthrow.
    by apply render_error_refused.
Qed.

Lemma system_renders_errors_witness :
  Commands.system idle_env 1 ("get " +:+ String dquote "http://x") world0
  = (Returned tt,
     World [Line "Error: Premature end of quoted string"] [] 0 [] 0)
  ∧ Commands.system idle_env 1 "   " world0
    = (Returned tt, World [Line "Error: Empty command line"] [] 0 [] 0)
  ∧ Commands.system idle_env 1 "bogus 1 2" world0
    = (Returned tt,
       World [Line "Error: No such command 'bogus'"] [] 0 [] 0)
  ∧ Commands.system idle_env 1 "Echo hi" world0
    = (Returned tt, World [Line "Error: No such command 'Echo'"] [] 0 [] 0)
  ∧ Commands.system raw_refusing_env 3 "log" world0
    = (Returned tt,
       World [Line "Error: Broken pipe"] [] 0
         [AddListener 1; RemoveListener 1] 0)
  ∧ Commands.system broken_env 3 "log" world0
    = (Threw (GeneralException "Broken pipe"),
       World [] [] 0 [AddListener 1; RemoveListener 1] 0).
Proof.
  split; [| split; [| split; [| split; [| split]]]].
  - apply (system_renders_errors idle_env 1
             ("get " +:+ String dquote "http://x") world0);
      reflexivity.
  - apply (system_renders_errors idle_env 1 "   " world0); reflexivity.
  - destruct (system_renders_errors idle_env 1 "bogus 1 2" world0)
      as (_ & _ & H & _).
    refine (proj1 (H "bogus" ["1"; "2"] eq_refl _ eq_refl)).
    unfold command_names. rewrite !not_elem_of_cons.
    repeat split; try discriminate. apply not_elem_of_nil.
  - destruct (system_renders_errors idle_env 1 "Echo hi" world0)
      as (_ & _ & H & _).
    refine (proj1 (H "Echo" ["hi"] eq_refl _ eq_refl)).
    unfold command_names. rewrite !not_elem_of_cons.
    repeat split; try discriminate. apply not_elem_of_nil.
  - destruct (system_renders_errors raw_refusing_env 3 "log" world0)
      as (_ & _ & _ & H & _).
    destruct (H "log" [] (Commands.log raw_refusing_env 3) "Broken pipe"
                (World [] [] 0 [AddListener 1; RemoveListener 1] 0)
                eq_refl eq_refl eq_refl eq_refl) as [Hs _].
    exact Hs.
  - destruct (system_renders_errors broken_env 3 "log" world0)
      as (_ & _ & _ & _ & H).
    exact (H "log" [] (Commands.log broken_env 3) "Broken pipe"
             (World [] [] 0 [AddListener 1; RemoveListener 1] 0)
             (GeneralException "Broken pipe")
             eq_refl eq_refl eq_refl eq_refl).
Defined.

(** C5: tokenization fails exactly when the end of the input is reached
    inside a quoted region or right after a backslash inside one, each with
    its own message; the result is then the failure alone, no token is
    returned.  Dispatching a line that ends inside a quoted region, such as
    [get], a space, a double quote and [http://x], writes the one line
    [Error: Premature end of quoted string] and nothing else. *)
Theorem tokenization_fails_on_unfinished_quoting (line : string) :
  (command_words line
   = inl (FormatException "Premature end of quoted string")
   ↔ region_at_end line = InsideQuotes)
  ∧ (command_words line
     = inl (FormatException "Premature end of escaped character")
     ↔ region_at_end line = AfterEscape)
  ∧ ((∃ ws, command_words line = inr ws) ↔ region_at_end line = Outside)
  ∧ (∀ env fuel w,
        region_at_end line = InsideQuotes →
        stream_fault env (sink w)
          (Line "Error: Premature end of quoted string") = None →
        Commands.system env fuel line w
        = (Returned tt,
           set_sink
             (λ h, h ++ [Line "Error: Premature end of quoted string"]) w))
  ∧ region_at_end ("get " +:+ String dquote "http://x") = InsideQuotes.
Proof.
  pose proof (command_words_region line) as Hr.
  assert (Hquoted : region_at_end line = InsideQuotes →
            command_words line
            = inl (FormatException "Premature end of quoted string")).
  { intros H. by rewrite H in Hr. }
  repeat split.
  - intros H. destruct (region_at_end line); try done.
    + destruct Hr as [ws Hws]. congruence.
    + rewrite Hr in H. discriminate.
  - exact Hquoted.
  - intros H. destruct (region_at_end line); try done.
    + destruct Hr as [ws Hws]. congruence.
    + rewrite Hr in H. discriminate.
  - intros H. by rewrite H in Hr.
  - intros [ws H]. destruct (region_at_end line); try done;
      rewrite Hr in H; discriminate.
  - intros H. by rewrite H in Hr.
  - intros env fuel w Hin Hok.
    apply system_tokenizer_failure; [| exact Hok].
    by apply Hquoted.
Qed.

Lemma tokenization_fails_on_unfinished_quoting_witness :
  Commands.system idle_env 1 ("get " +:+ String dquote "http://x") world0
  = (Returned tt,
     World [Line ("Error: " +:+ "Premature end of " +:+ "quoted string")]
       [] 0 [] 0).
Proof.
  apply (tokenization_fails_on_unfinished_quoting
           ("get " +:+ String dquote "http://x")); reflexivity.
Defined.

(** ** The console at work *)

Example command_words_quoted_argument :
  command_words ("echo a " +:+ quote "b c" +:+ " d")
  = inr ["echo"; "a"; "b c"; "d"].
Proof. reflexivity. Qed.

Example command_words_escapes :
  command_words (quote ("a\\b\" +:+ String dquote "c"))
  = inr ["a\b" +:+ String dquote "c"].
Proof. reflexivity. Qed.

Example echo_numbered_lines :
  Commands.system idle_env 1 "echo -v a b" world0
  = (Returned tt, World [Line "[1] a"; Line "[2] b"] [] 0 [] 0).
Proof. by vm_compute. Qed.

Example echo_one_line :
  Commands.system idle_env 1 "echo a b" world0
  = (Returned tt, World [Line "a b"] [] 0 [] 0).
Proof. by vm_compute. Qed.

Example helo_verbose :
  Commands.system idle_env 1 "helo -v example.org" world0
  = (Returned tt,
     World [Line "HELO example.org"; Line "Remote ID: ";
            Line "Remote agent: "; Line "OK";
            Line "--- 0 bytes written"; Line "--- 0 bytes read"]
       [] 0
       [SockConnect "example.org"; PcpHandshake "example.org";
        PcpQuit "example.org"] 0).
Proof. by vm_compute. Qed.

(** * More of the console *)

(** ** More on the tokenizer *)

Lemma has_char_push_char c word d :
  has_char c (push_char word d) = has_char c word || Ascii.eqb d c.
Proof.
  unfold push_char. induction word as [|e word IH].
  - simpl. by rewrite orb_false_r.
  - rewrite append_cons. simpl. by rewrite IH, orb_assoc.
Qed.

Lemma nonempty_push_char word d : nonempty (push_char word d) = true.
Proof. by destruct word. Qed.

Lemma flush_bare word words :
  unquoted word = true →
  Forall (λ w, bare w = true) words →
  Forall (λ w, bare w = true) (flush word words).
Proof.
  intros Hu Hws. unfold flush. destruct (nonempty word) eqn:Hn; [| done].
  apply Forall_app. split; [done |]. constructor; [| done].
  unfold bare. unfold unquoted in Hu.
  apply andb_true_iff in Hu as [Hs Hq]. by rewrite Hn, Hs, Hq.
Qed.

(** Outside quotes and without a double quote to read, the scanner keeps
    its word free of spaces and its tokens bare. *)
Lemma scan_run_no_quote line :
  has_char dquote line = false →
  ∀ st, mode_region (sc_mode st) = Outside →
        unquoted (sc_word st) = true →
        Forall (λ w, bare w = true) (sc_words st) →
        mode_region (sc_mode (scan_run st line)) = Outside
        ∧ unquoted (sc_word (scan_run st line)) = true
        ∧ Forall (λ w, bare w = true) (sc_words (scan_run st line)).
Proof.
  induction line as [|c line IH]; intros Hq st Hm Hw Hws; [done |].
  apply has_char_false_cons in Hq as [Hc Hq]. fold dquote in Hc.
  rewrite scan_run_cons. apply (IH Hq).
  - rewrite scan_step_region, Hm. simpl. by rewrite Hc.
  - destruct st as [[] word words]; try discriminate; unfold scan_step;
      simpl in *; rewrite Hc; destruct (Ascii.eqb c space) eqn:Hsp;
      simpl; try done; unfold unquoted in *;
      rewrite !has_char_push_char;
      apply andb_true_iff in Hw as [Hs Hd];
      apply negb_true_iff in Hs; apply negb_true_iff in Hd;
      fold space dquote; by rewrite Hs, Hd, Hsp, Hc.
  - destruct st as [[] word words]; try discriminate; unfold scan_step;
      simpl in *; rewrite Hc; destruct (Ascii.eqb c space);
      simpl; try done; by apply flush_bare.
Qed.

(** X1: a line without a double quote is always tokenized, and every token
    it gives is non-empty and holds no space: runs of spaces, at the ends
    or between words, never make an empty token. *)
Theorem unquoted_line_tokens (line : string) :
  has_char dquote line = false →
  ∃ ws, command_words line = inr ws ∧ Forall (λ w, bare w = true) ws.
Proof.
  intros Hq. rewrite command_words_scan.
  destruct (scan_run_no_quote line Hq (Scanner InWord "" []))
    as (Hm & Hw & Hws); [done | done | done |].
  destruct (scan_run (Scanner InWord "" []) line) as [[] word words];
    try discriminate; unfold scan_finish; simpl in *;
    eexists; (split; [reflexivity | by apply flush_bare]).
Qed.

Lemma unquoted_line_tokens_witness :
  ∃ ws, command_words "  nslookup   a\b  " = inr ws
        ∧ Forall (λ w, bare w = true) ws.
Proof. exact (unquoted_line_tokens "  nslookup   a\b  " eq_refl). Defined.

Lemma started_step st c : started st → started (scan_step st c).
Proof.
  destruct st as [m word words]. unfold started, scan_step. simpl.
  intros [Hws | [Hw | Hm]].
  - left. destruct m; simpl;
      repeat match goal with
             | |- context [Ascii.eqb c ?d] => destruct (Ascii.eqb c d)
             end; simpl; try done; unfold flush;
      try destruct (nonempty word); try done;
      by intros H; apply app_eq_nil in H as [? ?].
  - destruct m; simpl;
      repeat match goal with
             | |- context [Ascii.eqb c ?d] => destruct (Ascii.eqb c d)
             end; simpl; unfold flush; try rewrite Hw;
      try (by right; left; apply nonempty_push_char);
      try (by right; left);
      try (by right; right);
      by left; intros H; apply app_eq_nil in H as [? ?].
  - destruct m; simpl in *; try done;
      repeat match goal with
             | |- context [Ascii.eqb c ?d] => destruct (Ascii.eqb c d)
             end; simpl;
      try (by right; right);
      by left; intros H; apply app_eq_nil in H as [? ?].
Qed.

Lemma started_result st line past_end :
  started st → (scan_finish past_end (scan_run st line)).2 ≠ inr [].
Proof.
  revert st. induction line as [|c line IH]; intros st Hst.
  - destruct st as [m word words]. unfold started in Hst. simpl in *.
    destruct Hst as [Hws | [Hw | Hm]]; destruct m; unfold scan_finish;
      simpl in *; try done; unfold flush; try rewrite Hw;
      try destruct (nonempty word); try congruence;
      by intros H; injection H as H; apply app_eq_nil in H as [? ?].
  - rewrite scan_run_cons. by apply IH, started_step.
Qed.

Lemma blank_result line m past_end :
  m = InWord ∨ m = InSpaces →
  (scan_finish past_end (scan_run (Scanner m "" []) line)).2 = inr []
  ↔ blank line = true.
Proof.
  revert m. induction line as [|c line IH]; intros m Hm.
  - by destruct Hm as [-> | ->].
  - rewrite scan_run_cons. simpl blank.
    assert (Hstep : scan_step (Scanner m "" []) c
                    = scan_step (Scanner InWord "" []) c)
      by (by destruct Hm as [-> | ->]).
    rewrite Hstep. unfold scan_step. simpl. fold space.
    destruct (Ascii.eqb c space) eqn:Hsp; simpl.
    + apply IH. by right.
    + split; [| done]. intros H. exfalso. revert H.
      apply started_result. unfold started.
      destruct (Ascii.eqb c dquote); simpl.
      * right. right. done.
      * right. left. done.
Qed.

(** X2: the tokenizer returns no token exactly for a line made of spaces
    only (the empty line included): any other line gives a token or a
    failure. *)
Theorem no_token_iff_blank (line : string) :
  command_words line = inr [] ↔ blank line = true.
Proof. rewrite command_words_scan. apply blank_result. by left. Qed.

Lemma flush_prefix pre word words :
  flush word (pre ++ words) = pre ++ flush word words.
Proof. unfold flush. destruct (nonempty word); by rewrite ?app_assoc. Qed.

(** Tokens already emitted stay in front of whatever is read next. *)
Lemma scan_run_prefix pre line :
  ∀ m word words,
    scan_run (Scanner m word (pre ++ words)) line
    = Scanner (sc_mode (scan_run (Scanner m word words) line))
        (sc_word (scan_run (Scanner m word words) line))
        (pre ++ sc_words (scan_run (Scanner m word words) line)).
Proof.
  induction line as [|c line IH]; intros m word words; [done |].
  rewrite !scan_run_cons.
  assert (Hstep : scan_step (Scanner m word (pre ++ words)) c
            = Scanner (sc_mode (scan_step (Scanner m word words) c))
                (sc_word (scan_step (Scanner m word words) c))
                (pre ++ sc_words (scan_step (Scanner m word words) c))).
  { unfold scan_step. simpl.
    destruct m;
      repeat match goal with
             | |- context [Ascii.eqb c ?d] => destruct (Ascii.eqb c d)
             end; simpl; by rewrite ?flush_prefix, ?app_assoc. }
  rewrite Hstep.
  destruct (scan_step (Scanner m word words) c) as [m1 word1 words1].
  apply IH.
Qed.

Lemma scan_finish_prefix pre past_end m word words :
  (scan_finish past_end (Scanner m word (pre ++ words))).2
  = prepend pre (scan_finish past_end (Scanner m word words)).2.
Proof. destruct m; unfold scan_finish; simpl; by rewrite ?flush_prefix. Qed.

(** From the space loop or from the outer loop, the tokens are the same. *)
Lemma scan_from_spaces line word words past_end :
  (scan_finish past_end (scan_run (Scanner InSpaces word words) line)).2
  = (scan_finish past_end (scan_run (Scanner InWord word words) line)).2.
Proof.
  destruct line as [|c line]; [done |].
  by rewrite !scan_run_cons, scan_step_spaces.
Qed.

(** Reading [line] after the tokens [pre], with no word under way. *)
Lemma scan_after_tokens pre line m :
  m = InWord ∨ m = InSpaces →
  (scan_finish false (scan_run (Scanner m "" pre) line)).2
  = prepend pre (command_words line).
Proof.
  intros Hm. rewrite command_words_scan.
  assert (H : (scan_finish false (scan_run (Scanner m "" pre) line)).2
              = (scan_finish false
                   (scan_run (Scanner InWord "" (pre ++ [])) line)).2).
  { rewrite app_nil_r. destruct Hm as [-> | ->]; [done |].
    apply scan_from_spaces. }
  rewrite H, scan_run_prefix.
  destruct (scan_run (Scanner InWord "" []) line) as [m1 word1 words1].
  apply scan_finish_prefix.
Qed.

(** X3: tokenization composes over a separating space: when both parts of
    a line tokenize, the tokens of the first part, a space and the second
    part are the tokens of the first followed by those of the second.  With
    an empty part: a space put before or after a line that tokenizes does
    not change its tokens. *)
Theorem command_words_space_concat (s t : string) (ws1 ws2 : list string) :
  command_words s = inr ws1 →
  command_words t = inr ws2 →
  command_words (s +:+ " " +:+ t) = inr (ws1 ++ ws2).
Proof.
  intros Hs Ht. rewrite command_words_scan in Hs.
  change (" " +:+ t) with (String space t).
  rewrite command_words_scan, scan_run_append, scan_run_cons.
  destruct (scan_run (Scanner InWord "" []) s) as [[] word words];
    unfold scan_finish in Hs; simpl in Hs; try discriminate;
    injection Hs as Hs; unfold scan_step; simpl; rewrite Hs;
    rewrite (scan_after_tokens ws1 t InSpaces) by auto;
    by rewrite Ht.
Qed.

Lemma command_words_space_concat_witness :
  command_words ("echo  -v" +:+ " " +:+ (quote "a b" +:+ " c "))
  = inr (["echo"; "-v"] ++ ["a b"; "c"]).
Proof.
  exact (command_words_space_concat "echo  -v" (quote "a b" +:+ " c ")
           ["echo"; "-v"] ["a b"; "c"] eq_refl eq_refl).
Defined.

(** Inside quotes an escaped text is read back as the text. *)
Lemma scan_run_escape w :
  ∀ word words rest,
    scan_run (Scanner InQuoted word words) (escape w +:+ rest)
    = scan_run (Scanner InQuoted (word +:+ w) words) rest.
Proof.
  induction w as [|c w IH]; intros word words rest.
  - simpl escape. change ("" +:+ rest) with rest. by rewrite append_nil_r.
  - simpl escape.
    destruct (Ascii.eqb c dquote || Ascii.eqb c backslash) eqn:Hesc.
    + rewrite !append_cons, !scan_run_cons.
      change (scan_step (scan_step (Scanner InQuoted word words) backslash) c)
        with (Scanner InQuoted (push_char word c) words).
      by rewrite IH, push_char_append.
    + apply orb_false_iff in Hesc as [Hd Hb].
      rewrite append_cons, scan_run_cons.
      unfold scan_step at 1. simpl. rewrite Hd, Hb.
      by rewrite IH, push_char_append.
Qed.

Lemma scan_run_quote_escape w m words rest :
  m = InWord ∨ m = InSpaces →
  scan_run (Scanner m "" words) (quote (escape w) +:+ rest)
  = scan_run (Scanner InWord "" (words ++ [w])) rest.
Proof.
  intros Hm. rewrite quote_append, scan_run_cons.
  assert (Hopen : scan_step (Scanner m "" words) dquote
                  = Scanner InQuoted "" words)
    by (by destruct Hm as [-> | ->]).
  rewrite Hopen, scan_run_escape, scan_run_cons. reflexivity.
Qed.

Lemma scan_quoted_line ws :
  ∀ words0 m, m = InWord ∨ m = InSpaces →
    (scan_finish false (scan_run (Scanner m "" words0) (quoted_line ws))).2
    = inr (words0 ++ ws).
Proof.
  unfold quoted_line.
  induction ws as [|w ws IH]; intros words0 m Hm.
  - simpl. rewrite app_nil_r. by destruct Hm as [-> | ->].
  - destruct ws as [|w2 ws].
    + change (join " " (map (λ w, quote (escape w)) [w]))
        with (quote (escape w)).
      rewrite <- (append_nil_r (quote (escape w))).
      by rewrite scan_run_quote_escape.
    + change (join " " (map (λ w, quote (escape w)) (w :: w2 :: ws)))
        with (quote (escape w)
              +:+ String space
                    (join " " (map (λ w, quote (escape w)) (w2 :: ws)))).
      rewrite scan_run_quote_escape, scan_run_cons by done.
      change (scan_step (Scanner InWord "" (words0 ++ [w])) space)
        with (Scanner InSpaces "" (words0 ++ [w])).
      rewrite (IH (words0 ++ [w]) InSpaces) by auto.
      by rewrite <- app_assoc.
Qed.

(** Unquoted text and then a quoted segment: the closing quote emits both
    as one token, from the outer loop as from the space loop. *)
Lemma scan_run_word_quote m word words u q rest :
  m = InWord ∨ m = InSpaces →
  unquoted u = true →
  scan_run (Scanner m word words) (u +:+ quote (escape q) +:+ rest)
  = scan_run (Scanner InWord "" (words ++ [word +:+ u +:+ q])) rest.
Proof.
  intros Hm Hu.
  assert (Hin : scan_run (Scanner m word words)
                  (u +:+ quote (escape q) +:+ rest)
                = scan_run (Scanner InWord word words)
                    (u +:+ quote (escape q) +:+ rest)).
  { destruct Hm as [-> | ->]; [done |]. destruct u as [|c u].
    - change ("" +:+ quote (escape q) +:+ rest)
        with (quote (escape q) +:+ rest).
      by rewrite quote_append, !scan_run_cons, scan_step_spaces.
    - by rewrite append_cons, !scan_run_cons, scan_step_spaces. }
  rewrite Hin, scan_run_append, scan_run_unquoted by done.
  rewrite quote_append, scan_run_cons.
  change (scan_step (Scanner InWord (word +:+ u) words) dquote)
    with (Scanner InQuoted (word +:+ u) words).
  rewrite scan_run_escape, scan_run_cons.
  change (scan_step (Scanner InQuoted ((word +:+ u) +:+ q) words) dquote)
    with (Scanner InWord "" (words ++ [(word +:+ u) +:+ q])).
  by rewrite append_assoc.
Qed.

(** C4 (amended): every matching unescaped closing double quote emits the
    current token, wherever it stands in the line: the tokens of the line
    are those of the part that ends with the closing quote — the last of
    them is the token that the quote emits — followed by the tokens of
    what comes after the quote, read on its own.  The token emitted is the
    unquoted text read since the last flush followed by the quoted text,
    escapes resolved: after earlier tokens and a space as at the start of
    the line, a word of unquoted text and a quoted segment gives one token,
    and what follows the closing quote starts a new one. *)
Theorem closing_quote_flushes_token :
  (∀ pre,
      region_at_end pre = InsideQuotes →
      ∃ ws w,
        command_words (pre +:+ String dquote "") = inr (ws ++ [w])
        ∧ ∀ rest,
            command_words (pre +:+ String dquote rest)
            = prepend (ws ++ [w]) (command_words rest))
  ∧ (∀ pre ws u q rest,
        command_words pre = inr ws →
        unquoted u = true →
        command_words (pre +:+ " " +:+ u +:+ quote (escape q) +:+ rest)
        = prepend (ws ++ [u +:+ q]) (command_words rest))
  ∧ (∀ u q rest,
        unquoted u = true →
        command_words (u +:+ quote (escape q) +:+ rest)
        = prepend [u +:+ q] (command_words rest)).
Proof.
  split; [| split].
  - intros pre Hr. unfold region_at_end in Hr.
    pose proof (scan_run_region (Scanner InWord "" []) pre) as Hm.
    simpl in Hm. rewrite Hr in Hm.
    destruct (scan_run (Scanner InWord "" []) pre) as [m word words] eqn:Hst.
    destruct m; try discriminate.
    exists words, word. split.
    + by rewrite command_words_scan, scan_run_append, Hst.
    + intros rest.
      rewrite (command_words_scan (pre +:+ String dquote rest)).
      rewrite scan_run_append, Hst, scan_run_cons.
      change (scan_step (Scanner InQuoted word words) dquote)
        with (Scanner InWord "" (words ++ [word])).
      apply scan_after_tokens. by left.
  - intros pre ws u q rest Hpre Hu. rewrite command_words_scan in Hpre.
    change (" " +:+ u +:+ quote (escape q) +:+ rest)
      with (String space (u +:+ quote (escape q) +:+ rest)).
    rewrite command_words_scan, scan_run_append, scan_run_cons.
    destruct (scan_run (Scanner InWord "" []) pre) as [[] word words];
      unfold scan_finish in Hpre; simpl in Hpre; try discriminate;
      injection Hpre as Hpre; unfold scan_step; simpl; rewrite Hpre;
      rewrite (scan_run_word_quote InSpaces) by auto;
      apply scan_after_tokens; by left.
  - intros u q rest Hu.
    rewrite command_words_scan, (scan_run_word_quote InWord) by auto.
    apply scan_after_tokens. by left.
Qed.

Lemma closing_quote_flushes_token_witness :
  command_words ("x a" +:+ quote "b" +:+ "c") = inr ["x"; "ab"; "c"]
  ∧ command_words ("a" +:+ quote "b" +:+ "c") = inr ["ab"; "c"]
  ∧ ∃ ws w,
      command_words ("x a" +:+ quote "b\\" +:+ "") = inr (ws ++ [w])
      ∧ ∀ rest,
          command_words ("x a" +:+ quote "b\\" +:+ rest)
          = prepend (ws ++ [w]) (command_words rest).
Proof.
  destruct closing_quote_flushes_token as (Hany & Hafter & Hfirst).
  split; [| split].
  - exact (Hafter "x" ["x"] "a" "b" "c" eq_refl eq_refl).
  - exact (Hfirst "a" "b" "c" eq_refl).
  - exact (Hany ("x a" +:+ String dquote "b\\") eq_refl).
Defined.

(** X4: quoting is the inverse of tokenizing.  Any sequence of tokens —
    empty ones, and ones with spaces, double quotes or backslashes
    included — written as double-quoted words, with a backslash before
    each double quote and each backslash, and separated by single spaces,
    is read back by the tokenizer as that sequence. *)
Theorem command_words_quoted_line (ws : list string) :
  command_words (quoted_line ws) = inr ws.
Proof.
  rewrite command_words_scan.
  by rewrite (scan_quoted_line ws [] InWord) by auto.
Qed.

(** ** More on the argument splitter *)

Lemma parse_loop_app names args1 args2 :
  "--" ∉ args1 →
  ∀ options positionals,
    parse_loop names (args1 ++ args2) options positionals
    = parse_loop names args2
        (parse_loop names args1 options positionals).1
        (parse_loop names args1 options positionals).2.
Proof.
  induction args1 as [|a args1 IH]; intros Hnot options positionals;
    [done |].
  apply not_elem_of_cons in Hnot as [Ha Hnot].
  simpl. destruct (String.eqb_spec a "--") as [-> | _]; [done |].
  destruct (is_option_name names a); by apply IH.
Qed.

(** X5: splitting composes: when the first part of the arguments holds no
    [--], the positionals of the whole are those of the first part followed
    by those of the second, and the options of the whole are the options of
    both parts together. *)
Theorem parse_options_app (args1 args2 option_names : list string) :
  "--" ∉ args1 →
  (parse_options (args1 ++ args2) option_names).2
  = (parse_options args1 option_names).2
    ++ (parse_options args2 option_names).2
  ∧ (parse_options (args1 ++ args2) option_names).1
    = (parse_options args1 option_names).1
      ∪ (parse_options args2 option_names).1.
Proof.
  intros Hnot. unfold parse_options.
  rewrite (parse_loop_app option_names args1 args2 Hnot).
  destruct (parse_loop_spec option_names args2
              (parse_loop option_names args1 ∅ []).1
              (parse_loop option_names args1 ∅ []).2) as [Hp Ho].
  destruct (parse_loop_spec option_names args2 ∅ []) as [Hp2 Ho2].
  destruct (parse_loop_spec option_names args1 ∅ []) as [_ Ho1].
  split.
  - rewrite Hp, Hp2. done.
  - apply map_eq. intros k. rewrite Ho, lookup_union, Ho1, Ho2.
    rewrite lookup_empty.
    by repeat case_bool_decide.
Qed.

Lemma parse_options_app_witness :
  parse_options (["a"; "-v"] ++ ["b"; "--"; "-v"]) ["-v"]
  = ({["-v" := true]}, ["a"] ++ ["b"; "-v"]).
Proof.
  destruct (parse_options_app ["a"; "-v"] ["b"; "--"; "-v"] ["-v"])
    as [Hp Ho].
  - rewrite !not_elem_of_cons. repeat split; try discriminate.
    apply not_elem_of_nil.
  - rewrite (surjective_pairing (parse_options _ _)), Hp, Ho.
    by vm_compute.
Defined.

(** ** Handlers on a stream that accepts every write *)

Lemma set_sink_app l1 l2 w :
  set_sink (λ h, h ++ l2) (set_sink (λ h, h ++ l1) w)
  = set_sink (λ h, h ++ l1 ++ l2) w.
Proof. unfold set_sink. simpl. by rewrite <- app_assoc. Qed.

Lemma set_sink_nil w : set_sink (λ h, h ++ []) w = w.
Proof. destruct w. unfold set_sink. simpl. by rewrite app_nil_r. Qed.

Lemma format_numbered i word :
  format "[%d] %s" [FD i; FS word] = "[" +:+ pretty i +:+ "] " +:+ c_str word.
Proof. simpl. by rewrite append_nil_r. Qed.

Lemma format_channel a b c :
  format "%s %s %s" [FS a; FS b; FS c]
  = c_str a +:+ " " +:+ c_str b +:+ " " +:+ c_str c.
Proof. simpl. by rewrite append_nil_r. Qed.



Lemma format_not_found name :
  format "Error: '%s' not found" [FS name]
  = "Error: '" +:+ c_str name +:+ "' not found".
Proof. reflexivity. Qed.

Lemma format_not_found_because name what :
  format "Error: '%s' not found: %s" [FS name; FS what]
  = "Error: '" +:+ c_str name +:+ "' not found: " +:+ c_str what.
Proof. simpl. by rewrite append_nil_r. Qed.

Section Healthy.

Variable env : Env.
Hypothesis healthy : ∀ h c, stream_fault env h c = None.

Lemma writeLine_healthy text w :
  Commands.writeLine env text w
  = (Returned tt, set_sink (λ h, h ++ [Line text]) w).
Proof. apply stream_write_accepted, healthy. Qed.

Lemma for_each_lines {A} (l : list A) (line : A → string) w :
  for_each l (λ x, Commands.writeLine env (line x)) w
  = (Returned tt, set_sink (λ h, h ++ map (λ x, Line (line x)) l) w).
Proof.
  revert w. induction l as [|x l IH]; intros w; simpl.
  - unfold ret. by rewrite set_sink_nil.
  - unfold bind. by rewrite writeLine_healthy, IH, set_sink_app.
Qed.

Lemma echo_numbered_healthy positionals :
  ∀ i w,
    Commands.echo_numbered env i positionals w
    = (Returned tt,
       set_sink (λ h, h ++ imap (numbered_line i) positionals) w).
Proof.
  induction positionals as [|word rest IH]; intros i w; simpl.
  - unfold ret. by rewrite set_sink_nil.
  - unfold bind, Commands.writeLineF.
    rewrite writeLine_healthy, IH, set_sink_app, format_numbered.
    assert (Hrest : imap (numbered_line (i + 1)) rest
                    = imap (numbered_line i ∘ S) rest).
    { apply imap_ext. intros k x _. unfold numbered_line, compose.
      by replace (i + 1 + Z.of_nat k)%Z with (i + Z.of_nat (S k))%Z by lia. }
    assert (Hhead : numbered_line i 0 word
                    = Line ("[" +:+ pretty i +:+ "] " +:+ c_str word)).
    { unfold numbered_line. by rewrite Z.add_0_r. }
    by rewrite Hrest, Hhead.
Qed.

End Healthy.

Lemma verbose_option argv :
  is_Some ((parse_options argv ["-v"]).1 !! "-v")
  ↔ "-v" ∈ before_dashes argv.
Proof.
  unfold parse_options.
  destruct (parse_loop_spec ["-v"] argv ∅ []) as [_ Ho].
  rewrite Ho, lookup_empty. case_bool_decide as H.
  - split; [by intros _; destruct H | by eauto].
  - split; [by intros [x Hx] |].
    intros Hin. exfalso. apply H. split; [apply list_elem_of_here | done].
Qed.

(** X6: on a stream that accepts the writes, [echo] returns having written
    its positionals and nothing else: without [-v] before a [--], one line
    with the positionals joined by single spaces (an empty line when there
    is none); with it, one line per positional, numbered from 1 in the
    order given. *)
Theorem echo_output (env : Env) (argv : list string) (w : world) :
  (∀ h c, stream_fault env h c = None) →
  Commands.echo env argv w
  = (Returned tt,
     set_sink
       (λ h, h ++ if bool_decide ("-v" ∈ before_dashes argv)
                  then imap (numbered_line 1) (parse_options argv ["-v"]).2
                  else [Line (c_str (join " "
                                       (parse_options argv ["-v"]).2))])
       w).
Proof.
  intros Hhealthy. unfold Commands.echo.
  pose proof (verbose_option argv) as Hv.
  destruct (parse_options argv ["-v"]) as [options positionals].
  simpl in *.
  rewrite (bool_decide_ext _ _ Hv).
  case_bool_decide.
  - by apply echo_numbered_healthy.
  - by apply writeLine_healthy.
Qed.

Lemma echo_output_witness :
  Commands.echo idle_env ["x"; "-v"; "y z"; "--"; "-v"] world0
  = (Returned tt,
     World [Line "[1] x"; Line "[2] y z"; Line "[3] -v"] [] 0 [] 0)
  ∧ Commands.echo idle_env ["x"; "--"; "-v"] world0
    = (Returned tt, World [Line "x -v"] [] 0 [] 0).
Proof.
  split.
  - rewrite (echo_output idle_env) by done. by vm_compute.
  - rewrite (echo_output idle_env) by done. by vm_compute.
Defined.

(** X7: [chan] ignores its arguments and writes one line per channel, in
    the order of the channel list: name, identifier and status separated by
    single spaces.  With no channel it writes nothing and returns, whatever
    the stream would do with a write. *)
Theorem chan_lists_channels (env : Env) (argv : list string) (w : world) :
  (channels env = [] → Commands.chan env argv w = (Returned tt, w))
  ∧ ((∀ h c, stream_fault env h c = None) →
     Commands.chan env argv w
     = (Returned tt,
        set_sink (λ h, h ++ map channel_line (channels env)) w)).
Proof.
  unfold Commands.chan. split.
  - by intros ->.
  - intros Hhealthy. unfold Commands.writeLineF.
    rewrite (for_each_lines env Hhealthy (channels env)
               (λ it, format "%s %s %s"
                        [FS (getName it); FS (getID_str it);
                         FS (getStatusStr it)])).
    assert (Hlines : map (λ it, Line (format "%s %s %s"
                            [FS (getName it); FS (getID_str it);
                             FS (getStatusStr it)])) (channels env)
                     = map channel_line (channels env)).
    { apply map_ext. intros it. unfold channel_line.
      by rewrite format_channel. }
    by rewrite Hlines.
Qed.

Lemma chan_lists_channels_witness :
  Commands.chan busy_env ["ignored"] world0
  = (Returned tt,
     World [Line "News 01AB RECEIVE"; Line "Music 02CD IDLE"] [] 0 [] 0)
  ∧ Commands.chan broken_env [] world0 = (Returned tt, world0).
Proof.
  split.
  - destruct (chan_lists_channels busy_env ["ignored"] world0) as [_ H].
    rewrite H by done. by vm_compute.
  - destruct (chan_lists_channels broken_env [] world0) as [H _].
    by apply H.
Defined.




(** X9: the other two ways out of [get URL].  When [http::get] returns a
    body, [get] writes exactly that body as one raw write, after the one
    call to [http::get].  When [http::get] throws something that is not a
    [GeneralException], [get] writes nothing and the failure leaves the
    handler as it is. *)
Theorem get_outcomes (env : Env) (url : string) (w : world) :
  (∀ body,
      http_get env url = inr body →
      stream_fault env (sink w) (Raw body) = None →
      Commands.get env [url] w
      = (Returned tt,
         set_sink (λ h, h ++ [Raw body])
           (set_calls (λ cs, cs ++ [HttpGet url]) w)))
  ∧ (∀ what,
        http_get env url = inl (OtherException what) →
        Commands.get env [url] w
        = (Threw (OtherException what),
           set_calls (λ cs, cs ++ [HttpGet url]) w)).
Proof.
  split.
  - intros body Hget Hok.
    unfold Commands.get, bind, try_catch, record_call, lift. simpl.
    rewrite Hget. simpl. unfold Commands.writeString.
    by rewrite stream_write_accepted.
  - intros what Hget.
    unfold Commands.get, bind, try_catch, record_call, lift. simpl.
    by rewrite Hget.
Qed.

Lemma get_outcomes_witness :
  Commands.get busy_env ["http://localhost/"] world0
  = (Returned tt,
     World [Raw "<html></html>"] [] 0 [HttpGet "http://localhost/"] 0)
  ∧ Commands.get busy_env ["http://elsewhere/"] world0
    = (Threw (OtherException "std::bad_alloc"),
       World [] [] 0 [HttpGet "http://elsewhere/"] 0).
Proof.
  split.
  - destruct (get_outcomes busy_env "http://localhost/" world0) as [H _].
    by rewrite (H "<html></html>").
  - destruct (get_outcomes busy_env "http://elsewhere/" world0) as [_ H].
    by rewrite (H "std::bad_alloc").
Defined.

(** X10: [system] adds nothing to what the handler does unless the handler
    throws a [GeneralException]: when the handler returns, throws anything
    else, or is still running, the outcome and the state after [system]
    are the handler's. *)
Theorem system_passes_handler_result (env : Env) (fuel : nat)
    (line cmd : string) (args : list string)
    (handler : list string → M unit) (w : world) :
  command_words line = inr (cmd :: args) →
  Commands.handler_of env fuel cmd = Some handler →
  (∀ what, (handler args w).1 ≠ Threw (GeneralException what)) →
  Commands.system env fuel line w = handler args w.
Proof.
  intros Hw Hh Hnot.
  rewrite (system_dispatch env fuel line w cmd args Hw), Hh.
  unfold try_catch.
  destruct (handler args w) as [[[] | [what | what] | |] w1]; try done.
  exfalso. by apply (Hnot what).
Qed.

Lemma system_passes_handler_result_witness :
  Commands.system busy_env 1 "get http://elsewhere/" world0
  = (Threw (OtherException "std::bad_alloc"),
     World [] [] 0 [HttpGet "http://elsewhere/"] 0)
  ∧ Commands.system tail_env 1 "log" world0
    = (Running,
       World [Raw ("[EROR] first" +:+ String newline "")] [1] 0
         [AddListener 1] 100).
Proof.
  split.
  - rewrite (system_passes_handler_result busy_env 1 "get http://elsewhere/"
               "get" ["http://elsewhere/"] (Commands.get busy_env) world0);
      done.
  - rewrite (system_passes_handler_result tail_env 1 "log" "log" []
               (Commands.log tail_env 1) world0); done.
Defined.

(** X11: [nslookup NAME] on a stream that accepts the writes, when the
    resolver throws nothing but [GeneralException]: it makes exactly one
    lookup — by address when NAME parses as an IP address, by name
    otherwise — and returns normally in every case.  A host name found is
    one line; the addresses of a name are one line each; an address without
    a host name, or a name that does not resolve, is one [Error:] line that
    quotes NAME, and the failure of the resolver is not passed on. *)
Theorem nslookup_one_lookup (env : Env) (name : string) (w : world) :
  (∀ h c, stream_fault env h c = None) →
  (∀ what, getIPAddresses env name ≠ inl (OtherException what)) →
  Commands.nslookup env [name] w
  = (Returned tt,
     set_sink (λ h, h ++ nslookup_lines env name)
       (set_calls (λ cs, cs ++ [nslookup_call env name]) w)).
Proof.
  intros Hhealthy Hres.
  unfold Commands.nslookup, nslookup_lines, nslookup_call. simpl.
  destruct (IP_tryParse env name) as [ip |].
  - unfold bind, record_call.
    destruct (getHostnameByAddress env ip) as [out |].
    + by rewrite writeLine_healthy.
    + unfold Commands.writeLineF.
      by rewrite writeLine_healthy, format_not_found.
  - unfold try_catch, bind, record_call, lift.
    destruct (getIPAddresses env name) as [[what | what] | ips] eqn:Hips.
    + unfold throw, Commands.writeLineF.
      by rewrite writeLine_healthy, format_not_found_because.
    + exfalso. by apply (Hres what).
    + unfold ret.
      by rewrite (for_each_lines env Hhealthy ips (λ ip, ip)).
Qed.

Lemma nslookup_one_lookup_witness :
  Commands.nslookup busy_env ["127.0.0.1"] world0
  = (Returned tt,
     World [Line "localhost"] [] 0 [GetHostnameByAddress 2130706433] 0)
  ∧ Commands.nslookup busy_env ["localhost"] world0
    = (Returned tt,
       World [Line "127.0.0.1"; Line "::1"] [] 0
         [GetIPAddresses "localhost"] 0)
  ∧ Commands.nslookup busy_env ["nowhere"] world0
    = (Returned tt,
       World [Line "Error: 'nowhere' not found: Name or service not known"]
         [] 0 [GetIPAddresses "nowhere"] 0).
Proof.
  split; [| split].
  - rewrite (nslookup_one_lookup busy_env "127.0.0.1" world0); done.
  - rewrite (nslookup_one_lookup busy_env "localhost" world0); done.
  - rewrite (nslookup_one_lookup busy_env "nowhere" world0); done.
Defined.

(** ** What the handlers leave as they found it *)

Lemma tidy_ret {A} (a : A) : tidy (ret a).
Proof. by intros w. Qed.

Lemma tidy_throw {A} (e : thrown) : tidy (@throw A e).
Proof. by intros w. Qed.

Lemma tidy_lift {A} (r : thrown + A) : tidy (lift r).
Proof. destruct r; [apply tidy_throw | apply tidy_ret]. Qed.

Lemma tidy_record_call c : tidy (record_call c).
Proof. by intros w. Qed.

Lemma tidy_bind {A B} (m : M A) (k : A → M B) :
  tidy m → (∀ a, tidy (k a)) → tidy (bind m k).
Proof.
  intros Hm Hk w. unfold bind. pose proof (Hm w) as Hmw.
  destruct (m w) as [[a | e | |] w1]; simpl in *; try done.
  - intros Hrun Hterm. destruct Hmw as [Hl Ha]; [done | done |].
    destruct (Hk a w1 Hrun Hterm) as [Hl1 Ha1]. split; congruence.
  - intros _ _. by apply Hmw.
Qed.

Lemma tidy_try_catch {A} (body : M A) (handler : string → M A) :
  tidy body → (∀ what, tidy (handler what)) →
  tidy (try_catch body handler).
Proof.
  intros Hb Hh w. unfold try_catch. pose proof (Hb w) as Hbw.
  destruct (body w) as [[a | [what | what] | |] w1]; simpl in *; try done.
  intros Hrun Hterm. destruct Hbw as [Hl Ha]; [done | done |].
  destruct (Hh what w1 Hrun Hterm) as [Hl1 Ha1]. split; congruence.
Qed.

Lemma tidy_defer {A} (cleanup : M unit) (body : M A) :
  tidy cleanup → tidy body → tidy (defer cleanup body).
Proof.
  intros Hc Hb w. unfold defer. pose proof (Hb w) as Hbw.
  destruct (body w) as [[a | e | |] w1]; simpl in *; try done;
    pose proof (Hc w1) as Hcw;
    destruct (cleanup w1) as [[[] | e1 | |] w2]; simpl in *; try done;
    intros _ _; destruct Hbw as [Hl Ha]; try done;
    destruct Hcw as [Hl1 Ha1]; try done; split; congruence.
Qed.

Lemma tidy_for_each {A} (l : list A) (body : A → M unit) :
  (∀ x, tidy (body x)) → tidy (for_each l body).
Proof.
  intros Hbody. induction l as [|x l IH]; simpl.
  - apply tidy_ret.
  - apply tidy_bind; [apply Hbody | by intros _].
Qed.








Section Tidy.

Variable env : Env.

Lemma tidy_stream_write c : tidy (Commands.stream_write env c).
Proof.
  intros w. unfold Commands.stream_write.
  by destruct (stream_fault env (sink w) c).
Qed.


Lemma tidy_writeLine text : tidy (Commands.writeLine env text).
Proof. apply tidy_stream_write. Qed.

Lemma tidy_writeLineF fmt args : tidy (Commands.writeLineF env fmt args).
Proof. apply tidy_stream_write. Qed.

Lemma tidy_echo argv : tidy (Commands.echo env argv).
Proof.
  unfold Commands.echo.
  destruct (parse_options argv ["-v"]) as [options positionals].
  case_bool_decide; [| apply tidy_writeLine].
  generalize 1%Z.
  induction positionals as [|word rest IH]; intros i; simpl.
  - apply tidy_ret.
  - apply tidy_bind; [apply tidy_writeLineF | intros _; apply IH].
Qed.

Lemma tidy_chan argv : tidy (Commands.chan env argv).
Proof. apply tidy_for_each. intros it. apply tidy_writeLineF. Qed.

Lemma tidy_get argv : tidy (Commands.get env argv).
Proof.
  unfold Commands.get. destruct (negb (length argv =? 1)).
  - apply tidy_writeLine.
  - apply tidy_bind.
    + apply tidy_try_catch.
      * apply tidy_bind; [apply tidy_record_call | intros _].
        apply tidy_bind; [apply tidy_lift | intros body; apply tidy_ret].
      * intros what.
        apply tidy_bind; [apply tidy_stream_write | intros _; apply tidy_ret].
    + intros [body |]; [apply tidy_stream_write | apply tidy_ret].
Qed.

Lemma tidy_filter argv : tidy (Commands.filter env argv).
Proof.
  unfold Commands.filter. destruct (length argv <? 1).
  - apply tidy_bind; [apply tidy_writeLine | intros _; apply tidy_writeLine].
  - simpl. destruct (String.eqb (nth 0 argv "") "show").
    + apply tidy_for_each. intros f. apply tidy_writeLineF.
    + destruct (String.eqb (nth 0 argv "") "ban");
        [apply tidy_writeLine | apply tidy_writeLineF].
Qed.

Lemma tidy_nslookup argv : tidy (Commands.nslookup env argv).
Proof.
  unfold Commands.nslookup. destruct (negb (length argv =? 1)).
  - apply tidy_writeLine.
  - simpl. destruct (IP_tryParse env (nth 0 argv "")) as [ip |].
    + apply tidy_bind; [apply tidy_record_call | intros _].
      destruct (getHostnameByAddress env ip);
        [apply tidy_writeLine | apply tidy_writeLineF].
    + apply tidy_try_catch; [| intros what; apply tidy_writeLineF].
      apply tidy_bind; [apply tidy_record_call | intros _].
      apply tidy_bind; [apply tidy_lift | intros ips].
      apply tidy_for_each. intros ip. apply tidy_writeLine.
Qed.

Lemma tidy_logged_call {A} c (r : logged A) :
  tidy (Commands.logged_call env c r).
Proof.
  unfold Commands.logged_call.
  apply tidy_bind; [apply tidy_record_call | intros _].
  apply tidy_bind; [| intros _; apply tidy_lift].
  apply tidy_for_each. intros [type msg]. unfold Commands.aux_log_func.
  apply tidy_bind; [| intros _; apply tidy_writeLine].
  destruct type; [apply tidy_stream_write .. | apply tidy_ret].
Qed.


Lemma tidy_dump label data : tidy (Commands.dump env label data).
Proof.
  unfold Commands.dump.
  apply tidy_bind; [apply tidy_writeLineF | intros _].
  destruct (nonempty data); [| apply tidy_ret].
  apply tidy_bind; [apply tidy_writeLine | intros _; apply tidy_writeLine].
Qed.

Lemma tidy_dump_traffic options host :
  tidy (Commands.dump_traffic env options host).
Proof.
  unfold Commands.dump_traffic. case_bool_decide; [| apply tidy_ret].
  apply tidy_bind; [apply tidy_dump | intros _; apply tidy_dump].
Qed.

(** A scope that pushes on [AUX_LOG_FUNC_VECTOR] on entry and pops on the
    way out. *)
Lemma tidy_pushed_scope {A} (body : M A) :
  tidy body →
  tidy (bind push_aux_log_func (λ _, defer pop_aux_log_func body)).
Proof.
  intros Hb w. unfold bind, push_aux_log_func, defer, pop_aux_log_func.
  pose proof (Hb (set_aux_log_funcs S w)) as Hbw.
  destruct (body (set_aux_log_funcs S w)) as [[a | e | |] w1];
    simpl in *; try done; intros _ _;
    destruct Hbw as [Hl Ha]; try done; by rewrite Hl, Ha.
Qed.


Lemma tidy_helo argv : tidy (Commands.helo env argv).
Proof.
  unfold Commands.helo.
  destruct (parse_options argv ["-v"]) as [options positionals].
  destruct (negb (length positionals =? 1)); [apply tidy_writeLine |].
  simpl. apply tidy_try_catch; [| intros what; apply tidy_writeLineF].
  apply tidy_pushed_scope.
  apply tidy_bind; [apply tidy_lift | intros host].
  apply tidy_bind; [apply tidy_writeLineF | intros _].
  apply tidy_bind; [apply tidy_logged_call | intros _].
  apply tidy_defer; [apply tidy_dump_traffic |].
  apply tidy_bind; [apply tidy_logged_call | intros remote].
  apply tidy_bind; [apply tidy_writeLineF | intros _].
  apply tidy_bind; [apply tidy_writeLineF | intros _].
  apply tidy_bind; [apply tidy_logged_call | intros _].
  apply tidy_writeLine.
Qed.




Lemma tidy_log fuel argv : tidy (Commands.log env fuel argv).
Proof.
  intros w. rewrite log_unfold.
  pose proof (log_loop_registry env fuel 0 [] (registered w))
    as (Hl & _ & Ha).
  destruct (Commands.log_loop env fuel 0 [] (registered w))
    as [[q | e | |] w2]; simpl in *; intros Hrun Hterm; try done;
    by rewrite Hl, Ha, filter_drop_fresh by apply fresh_id_fresh.
Qed.

Lemma tidy_system fuel line : tidy (Commands.system env fuel line).
Proof.
  unfold Commands.system.
  apply tidy_try_catch; [| intros what; apply tidy_writeLineF].
  apply tidy_bind; [apply tidy_lift | intros words].
  destruct words as [|cmd args]; [apply tidy_writeLine |].
  repeat match goal with
         | |- context [String.eqb cmd ?name] => destruct (String.eqb cmd name)
         end;
    auto using tidy_log, tidy_nslookup, tidy_helo, tidy_filter, tidy_get,
      tidy_chan, tidy_echo, tidy_writeLineF.
Qed.

End Tidy.



(** X13: whatever the command line, when [system] comes back — by return
    or by a failure it does not catch — the subscriptions of the event
    source and the size of [AUX_LOG_FUNC_VECTOR] are what they were before
    the call. *)
Theorem system_frame (env : Env) (fuel : nat) (line : string) (w : world) :
  (Commands.system env fuel line w).1 ≠ Running →
  (Commands.system env fuel line w).1 ≠ Terminated →
  listeners (Commands.system env fuel line w).2 = listeners w
  ∧ aux_log_funcs (Commands.system env fuel line w).2 = aux_log_funcs w.
Proof. apply tidy_system. Qed.

Lemma system_frame_witness :
  listeners (Commands.system broken_env 3 "log" world0).2 = []
  ∧ aux_log_funcs
      (Commands.system busy_env 1 "helo -v peer" world0).2 = 0.
Proof.
  split.
  - apply (system_frame broken_env 3 "log" world0); by vm_compute.
  - apply (system_frame busy_env 1 "helo -v peer" world0); by vm_compute.
Defined.

(** ** More on [Commands::log] *)

Lemma drain_prefix env queue :
  ∀ w, ∃ l, l `prefix_of` queue
            ∧ sink (Commands.drain env queue w).2 = sink w ++ map Raw l
            ∧ ((Commands.drain env queue w).1 = Returned tt → l = queue).
Proof.
  induction queue as [|chunk rest IH]; intros w; simpl.
  - exists []. by rewrite app_nil_r.
  - unfold bind, Commands.writeString, Commands.stream_write.
    destruct (stream_fault env (sink w) (Raw chunk)) as [e |].
    + exists []. simpl. rewrite app_nil_r.
      repeat split; [apply prefix_nil | done].
    + destruct (IH (set_sink (λ h, h ++ [Raw chunk]) w))
        as (l & Hp & Hs & Hret).
      exists (chunk :: l). repeat split.
      * by apply prefix_cons.
      * rewrite Hs. simpl. by rewrite <- app_assoc.
      * intros H. f_equal. by apply Hret.
Qed.

Lemma round_chunks_enqueue env k :
  Commands.enqueue env (Commands.enqueue env [] (delivered_asleep env k))
    (delivered_awake env k)
  = round_chunks env k.
Proof. reflexivity. Qed.

Lemma log_loop_prefix env n fuel :
  cancel env n = true →
  ∀ k w, k ≤ n →
    ∃ l, l `prefix_of` flat_map (round_chunks env) (seq k (n - k))
         ∧ sink (Commands.log_loop env fuel k [] w).2 = sink w ++ map Raw l.
Proof.
  intros Hn. induction fuel as [|fuel IH]; intros k w Hk.
  - exists []. simpl. rewrite app_nil_r. split; [apply prefix_nil | done].
  - simpl Commands.log_loop. rewrite round_chunks_enqueue.
    destruct (cancel env k) eqn:Hc.
    + exists []. simpl. rewrite app_nil_r. split; [apply prefix_nil | done].
    + assert (Hlt : k < n).
      { destruct (decide (k = n)) as [-> | Hne]; [congruence | lia]. }
      replace (n - k) with (S (n - S k)) by lia. simpl flat_map.
      destruct (drain_prefix env (round_chunks env k) w)
        as (l1 & Hp1 & Hs1 & Hret1).
      unfold bind at 1.
      destruct (Commands.drain env (round_chunks env k) w)
        as [[[] | e | |] w1]; simpl in *.
      * rewrite Hret1 in * by done. unfold bind, sys_sleep.
        destruct (IH (S k) (set_clock (λ t, t + 100) w1)) as (l2 & Hp2 & Hs2);
          [lia |].
        exists (round_chunks env k ++ l2). split; [by apply prefix_app |].
        rewrite Hs2. simpl. rewrite Hs1, map_app. by rewrite <- app_assoc.
      * exists l1. split; [by apply prefix_app_r | done].
      * exists l1. split; [by apply prefix_app_r | done].
      * exists l1. split; [by apply prefix_app_r | done].
Qed.

(** X14: whatever the stream does with the writes, what [log] has written
    when [cancel] answers true at the [n]-th poll at the latest is a
    beginning of the sequence of chunks pushed before that poll, as raw
    writes in push order: no chunk is written twice, out of order, or
    after a chunk that was refused. *)
Theorem log_writes_prefix (env : Env) (fuel n : nat) (argv : list string)
    (w : world) :
  cancel env n = true →
  ∃ l, l `prefix_of` chunks_before env n
       ∧ sink (Commands.log env fuel argv w).2 = sink w ++ map Raw l.
Proof.
  intros Hn. rewrite log_unfold.
  destruct (log_loop_prefix env n fuel Hn 0 (registered w)) as (l & Hp & Hs);
    [lia |].
  exists l. rewrite Nat.sub_0_r in Hp. split; [exact Hp |].
  by destruct (Commands.log_loop env fuel 0 [] (registered w))
    as [[q | e | |] w2].
Qed.

Lemma log_writes_prefix_witness :
  (∃ l, l `prefix_of` chunks_before flaky_env 2
        ∧ sink (Commands.log flaky_env 5 [] world0).2
          = sink world0 ++ map Raw l)
  ∧ Commands.log flaky_env 5 [] world0
    = (Threw (GeneralException "Broken pipe"),
       World [Raw ("[EROR] first" +:+ String newline "")] [] 0
         [AddListener 1; RemoveListener 1] 0).
Proof.
  split; [| by vm_compute].
  exact (log_writes_prefix flaky_env 5 2 [] world0 eq_refl).
Defined.

(** X15: on a stream that accepts the writes, [log] returns at the first
    poll that reports cancellation: it has slept one interval of 100 after
    each earlier poll, and does not sleep once cancellation is seen. *)
Theorem log_returns_at_first_cancelled_poll (env : Env) (fuel n : nat)
    (argv : list string) (w : world) :
  (∀ h c, stream_fault env h c = None) →
  first_cancelled env n →
  n < fuel →
  (Commands.log env fuel argv w).1 = Returned tt
  ∧ clock (Commands.log env fuel argv w).2 = clock w + 100 * n.
Proof.
  intros Hhealthy [Htrue Hfalse] Hfuel.
  rewrite log_unfold.
  by rewrite (log_loop_rounds env Hhealthy n) by (simpl; auto).
Qed.

Lemma log_returns_at_first_cancelled_poll_witness :
  clock (Commands.log tail_env 3 [] world0).2 = 100.
Proof.
  assert (Hfirst : first_cancelled tail_env 1).
  { split; [reflexivity |]. intros [|k] Hk; [reflexivity | lia]. }
  destruct (log_returns_at_first_cancelled_poll tail_env 3 1 [] world0
              (λ _ _, eq_refl) Hfirst) as [_ Hclock]; [lia |].
  exact Hclock.
Defined.

(** ** The tokenizer adds no character *)

Lemma tokens_length_app ws1 ws2 :
  tokens_length (ws1 ++ ws2) = tokens_length ws1 + tokens_length ws2.
Proof.
  unfold tokens_length. induction ws1 as [|w ws1 IH]; simpl; [done |].
  rewrite IH. lia.
Qed.

Lemma length_push_char word c :
  String.length (push_char word c) = S (String.length word).
Proof.
  unfold push_char. induction word as [|d word IH]; [done |].
  rewrite append_cons. simpl. by rewrite IH.
Qed.

Lemma tokens_length_flush word words :
  tokens_length (flush word words)
  = tokens_length words + String.length word.
Proof.
  unfold flush. destruct word as [|c word]; simpl; [lia |].
  rewrite tokens_length_app. simpl. lia.
Qed.

Lemma scan_step_length st c :
  tokens_length (sc_words (scan_step st c))
  + String.length (sc_word (scan_step st c))
  ≤ S (tokens_length (sc_words st) + String.length (sc_word st)).
Proof.
  destruct st as [m word words]. unfold scan_step. simpl.
  destruct m;
    repeat match goal with
           | |- context [Ascii.eqb c ?d] => destruct (Ascii.eqb c d)
           end; simpl;
    rewrite ?tokens_length_flush, ?tokens_length_app, ?length_push_char;
    simpl; lia.
Qed.

Lemma scan_run_length line :
  ∀ st, tokens_length (sc_words (scan_run st line))
        + String.length (sc_word (scan_run st line))
        ≤ String.length line
          + (tokens_length (sc_words st) + String.length (sc_word st)).
Proof.
  induction line as [|c line IH]; intros st; [simpl; lia |].
  rewrite scan_run_cons. pose proof (IH (scan_step st c)) as H.
  pose proof (scan_step_length st c). simpl String.length. lia.
Qed.

(** X16: tokenizing only drops characters — the separating spaces, the
    quotes and the escaping backslashes — and never adds or repeats one:
    the lengths of the tokens add up to at most the length of the line. *)
Theorem tokens_no_longer_than_line (line : string) (ws : list string) :
  command_words line = inr ws →
  tokens_length ws ≤ String.length line.
Proof.
  rewrite command_words_scan. intros Hws.
  pose proof (scan_run_length line (Scanner InWord "" [])) as Hlen.
  destruct (scan_run (Scanner InWord "" []) line) as [[] word words];
    unfold scan_finish in Hws; simpl in *; try discriminate;
    injection Hws as <-; rewrite tokens_length_flush; lia.
Qed.

Lemma tokens_no_longer_than_line_witness :
  tokens_length ["echo"; "a b"; "c\"]
  ≤ String.length ("echo  " +:+ quote "a b" +:+ " c\").
Proof.
  exact (tokens_no_longer_than_line ("echo  " +:+ quote "a b" +:+ " c\")
           ["echo"; "a b"; "c\"] eq_refl).
Defined.

(** ** From the line to the stream *)

Lemma command_words_echo_quoted ws :
  command_words ("echo " +:+ quoted_line ws) = inr ("echo" :: ws).
Proof.
  rewrite command_words_scan.
  change ("echo " +:+ quoted_line ws)
    with ("echo" +:+ String space (quoted_line ws)).
  rewrite scan_run_append, scan_run_unquoted, scan_run_cons by done.
  change (scan_step (Scanner InWord ("" +:+ "echo") []) space)
    with (Scanner InSpaces "" ["echo"]).
  by rewrite (scan_quoted_line ws ["echo"] InSpaces) by auto.
Qed.

Lemma before_dashes_all args : "--" ∉ args → before_dashes args = args.
Proof.
  induction args as [|a args IH]; [done |].
  intros Hnot. apply not_elem_of_cons in Hnot as [Ha Hnot].
  simpl. destruct (String.eqb_spec a "--") as [-> | _]; [done |].
  by rewrite IH.
Qed.

Lemma after_dashes_none args : "--" ∉ args → after_dashes args = [].
Proof.
  induction args as [|a args IH]; [done |].
  intros Hnot. apply not_elem_of_cons in Hnot as [Ha Hnot].
  simpl. destruct (String.eqb_spec a "--") as [-> | _]; [done |].
  by apply IH.
Qed.

Lemma filter_all_positional (args : list string) :
  "-v" ∉ args → filter (λ a, a ∉ ["-v"]) args = args.
Proof.
  induction args as [|a args IH]; [done |].
  intros Hnot. apply not_elem_of_cons in Hnot as [Ha Hnot].
  rewrite filter_cons_True.
  - by rewrite IH.
  - rewrite list_elem_of_singleton. congruence.
Qed.

(** X17: from the line to the stream.  For any words that are neither [-v]
    nor [--] — empty, or with spaces, quotes or backslashes in them — the
    line made of [echo] and the words quoted and escaped is dispatched to
    [echo], which writes one line, the words joined by single spaces, and
    returns. *)
Theorem echo_prints_quoted_words (env : Env) (fuel : nat)
    (ws : list string) (w : world) :
  "-v" ∉ ws → "--" ∉ ws →
  stream_fault env (sink w) (Line (c_str (join " " ws))) = None →
  Commands.system env fuel ("echo " +:+ quoted_line ws) w
  = (Returned tt, set_sink (λ h, h ++ [Line (c_str (join " " ws))]) w).
Proof.
  intros Hv Hd Hok.
  rewrite (system_dispatch env fuel _ w "echo" ws
             (command_words_echo_quoted ws)).
  change (Commands.handler_of env fuel "echo") with (Some (Commands.echo env)).
  unfold try_catch, Commands.echo.
  pose proof (verbose_option ws) as Hopt.
  destruct (parse_loop_spec ["-v"] ws ∅ []) as [Hp _].
  fold (parse_options ws ["-v"]) in Hp.
  destruct (parse_options ws ["-v"]) as [options positionals].
  simpl in *.
  rewrite before_dashes_all, after_dashes_none, app_nil_r in Hp by done.
  rewrite filter_all_positional in Hp by done. subst positionals.
  rewrite before_dashes_all in Hopt by done.
  rewrite bool_decide_eq_false_2 by (by rewrite Hopt).
  unfold Commands.writeLine. by rewrite stream_write_accepted.
Qed.

Lemma echo_prints_quoted_words_witness :
  Commands.system idle_env 1
    ("echo " +:+ quoted_line ["a b"; ""; "c\" +:+ String dquote "d"]) world0
  = (Returned tt,
     World [Line ("a b  c\" +:+ String dquote "d")] [] 0 [] 0).
Proof.
  rewrite (echo_prints_quoted_words idle_env 1
             ["a b"; ""; "c\" +:+ String dquote "d"] world0);
    [by vm_compute | | | done];
    rewrite !not_elem_of_cons; repeat split; try discriminate;
    apply not_elem_of_nil.
Defined.

(** ** [helo] when it fails early *)


